(** * A shallow embedding of gala/serve.py: the proofreading Solver and
    the proofreading simulator.

    Ids (fragments and segments) are Python ints, here [nat].  The region
    adjacency graph [agglo.Rag], the feature manager, the classifier and
    the merge tree live in modules of this repository that are not part
    of the sources checked here; they are modelled from the spec and the
    definitions that do so say so. *)

From Stdlib Require Import String List Arith Lia Bool Permutation.
From Stdlib Require Import Relations.
From Stdlib Require Import Sorting.Mergesort.
Import ListNotations.

Open Scope nat_scope.

(** Labels for the machine learning libraries (serve.py, module constants). *)
Definition MERGE_LABEL : nat := 0.
Definition SEPAR_LABEL : nat := 1.

(** Python exceptions that can escape the handlers of serve.py. *)
Inductive exn :=
| KeyError
| StopIteration
| ValueError.

Definition memb (v : nat) (l : list nat) : bool := existsb (Nat.eqb v) l.

(** ** The region adjacency graph *)

(** Modelled from the spec: [agglo.Rag] (Graph, section 3).  Node set =
    live ids; [anc] is the union-find "highest ancestor" of any id in the
    merge tree ([rag.tree.highest_ancestor]); two live ids are adjacent
    iff some pair of original fragments they contain is adjacent in the
    original image ([fedges]).  [next] is the id the merge tree gives to
    the next merge result; [exclusions] is the per-node exclusions set. *)
Record Rag := mkRag {
  nodes : list nat;
  anc : nat -> nat;
  fedges : list (nat * nat);
  next : nat;
  boundary_body : nat;
  exclusions : nat -> list nat
}.

(** Modelled from the spec: adjacency of two ids in the live graph
    ([g[n1][n2]] exists). *)
Definition adjb (g : Rag) (a b : nat) : bool :=
  negb (Nat.eqb a b) &&
  existsb (fun e =>
             (Nat.eqb (anc g (fst e)) a && Nat.eqb (anc g (snd e)) b)
             || (Nat.eqb (anc g (fst e)) b && Nat.eqb (anc g (snd e)) a))
          (fedges g).

(** Modelled from the spec: [Rag.merge_nodes n1 n2] merges the two nodes
    into a fresh merge-tree node and returns its id; its neighbours are
    the union of theirs, and so is its exclusions set. *)
Definition merge_nodes (g : Rag) (a b : nat) : Rag * nat :=
  let n := next g in
  ({| nodes := filter (fun v => negb (Nat.eqb v a) && negb (Nat.eqb v b)) (nodes g) ++ [n];
      anc := fun x => if Nat.eqb (anc g x) a || Nat.eqb (anc g x) b then n else anc g x;
      fedges := fedges g;
      next := S n;
      boundary_body := boundary_body g;
      exclusions := fun v => if Nat.eqb v n then exclusions g a ++ exclusions g b
                             else exclusions g v |}, n).

(** Modelled from the spec: [rag.node[s]['exclusions'].add(i)]. *)
Definition add_exclusion (g : Rag) (s i : nat) : Rag :=
  {| nodes := nodes g; anc := anc g; fedges := fedges g; next := next g;
     boundary_body := boundary_body g;
     exclusions := fun v => if Nat.eqb v s then
                              (if memb i (exclusions g v) then exclusions g v
                               else exclusions g v ++ [i])
                            else exclusions g v |}.

(** Modelled from the spec: [Rag.replay_merge_history] with no labels
    merges every recorded pair, in order. *)
Definition replay_merge_history (g : Rag) (h : list (nat * nat)) : Rag :=
  fold_left (fun g p => fst (merge_nodes g (fst p) (snd p))) h g.

(** A well-formed graph: every live id and the ancestor of every
    fragment on an edge are ids the merge tree has already handed out. *)
Definition wf_rag (g : Rag) : Prop :=
  (forall v, In v (nodes g) -> v < next g) /\
  (forall x y, In (x, y) (fedges g) -> anc g x < next g /\ anc g y < next g).

(** ** Python sets of ints and networkx traversal *)

(** [set(...)] of non-negative ints, iterated here in ascending order.
    CPython iterates a set in hash-table order, which is not always
    ascending ([{1, 8}] gives 8 before 1); the results below hold for any
    iteration order: they only use that the list holds each member of
    the set once, and name its first member where the order matters. *)
Definition py_set (l : list nat) : list nat := NatSort.sort (nodup Nat.eq_dec l).

(** [nx.subgraph(rag, segments)] (networkx 1.x: a copy of the induced
    subgraph).  Its nodes are the members of the set that are nodes of
    the graph, its neighbour lists the adjacent members. *)
Definition sub_nodes (g : Rag) (s : list nat) : list nat :=
  filter (fun v => memb v (nodes g)) s.

Definition sub_nbrs (g : Rag) (ns : list nat) (v : nat) : list nat :=
  filter (adjb g v) ns.

(** [nx.dfs_preorder_nodes(G)] for [source=None]: a depth-first search
    started from every node not yet visited, in node order, emitting the
    nodes in preorder.  [dfs_visit] explores the children of [v], whose
    preorder so far is [vis]; the recursion is bounded by [fuel]. *)
Fixpoint dfs_visit (nbrs : nat -> list nat) (fuel : nat) (v : nat) (vis : list nat)
  : list nat :=
  match fuel with
  | O => vis
  | S f =>
      fold_left (fun acc c => if memb c acc then acc
                              else dfs_visit nbrs f c (acc ++ [c]))
                (nbrs v) vis
  end.

Definition dfs_preorder_nodes (ns : list nat) (nbrs : nat -> list nat) : list nat :=
  fold_left (fun acc s => if memb s acc then acc
                          else dfs_visit nbrs (length ns) s (acc ++ [s]))
            ns [].

(** ** The Solver *)

Section Solver.

(** Modelled from the spec: the FeatureExtractor.  [feature_vector g n1 n2]
    is the vector the feature manager computes for an edge of [g]; on a
    pair that is not an edge the lookup [g[n1][n2]] raises [KeyError]
    (see [extract]). *)
Variable Feature : Type.
Variable feature_vector : Rag -> nat -> nat -> Feature.

(** Modelled from the spec: the Classifier, trained by
    [classify.DefaultRandomForest().fit(features, targets)].  [fit] is a
    function of the log: the forest's seed is taken as fixed.  The real
    [fit] raises [ValueError] on an empty log, which the model does not
    represent; the concrete runs below relearn only on non-empty logs. *)
Variable Classifier : Type.
Variable fit : list Feature -> list nat -> Classifier.

(** Modelled from the spec: [Rag.separate_fragments f0 f1] un-merges just
    enough history that [f0] and [f1] lie in different live nodes and
    returns those two nodes. *)
Variable separate_fragments : Rag -> nat -> nat -> Rag * (nat * nat).

(** Modelled from the spec: [rag.agglomerate(0.5)] and
    [rag.tree.get_map(0.5)], the segment id of every index of the map.
    The merge priority [relearn] installs is not passed to [agglomerate]
    here; no result below depends on what agglomeration merges. *)
Variable agglomerate : Rag -> Rag.
Variable get_map : Rag -> list nat.

Record solver := mkSolver {
  rag : Rag;
  original_rag : Rag;
  history : list (nat * nat);
  separate : list (nat * nat);
  features : list Feature;
  targets : list nat;
  policy : option Classifier;
  relearn_threshold : nat;
  relearn_trigger : nat
}.

Definition set_rag (st : solver) (g : Rag) : solver :=
  {| rag := g; original_rag := original_rag st; history := history st;
     separate := separate st; features := features st; targets := targets st;
     policy := policy st; relearn_threshold := relearn_threshold st;
     relearn_trigger := relearn_trigger st |}.

(** [self.features.append(f); self.history.append(p);
    self.targets.append(t)]. *)
Definition log_example (st : solver) (f : Feature) (t : nat) : solver :=
  {| rag := rag st; original_rag := original_rag st; history := history st;
     separate := separate st; features := features st ++ [f];
     targets := targets st ++ [t]; policy := policy st;
     relearn_threshold := relearn_threshold st;
     relearn_trigger := relearn_trigger st |}.

Definition log_merge (st : solver) (p : nat * nat) : solver :=
  {| rag := rag st; original_rag := original_rag st; history := history st ++ [p];
     separate := separate st; features := features st; targets := targets st;
     policy := policy st; relearn_threshold := relearn_threshold st;
     relearn_trigger := relearn_trigger st |}.

Definition log_separation (st : solver) (p : nat * nat) : solver :=
  {| rag := rag st; original_rag := original_rag st; history := history st;
     separate := separate st ++ [p]; features := features st; targets := targets st;
     policy := policy st; relearn_threshold := relearn_threshold st;
     relearn_trigger := relearn_trigger st |}.

(** [self.feature_manager(self.rag, s0, s1)]: [None] is the [KeyError]
    raised on a pair that is not an edge of the graph. *)
Definition extract (g : Rag) (a b : nat) : option Feature :=
  if adjb g a b then Some (feature_vector g a b) else None.

(** The loop of [learn_merge]:
<<
        for s1 in ordered:
            self.features.append(self.feature_manager(self.rag, s0, s1))
            self.history.append((s0, s1))
            s0 = self.rag.merge_nodes(s0, s1)
            self.targets.append(MERGE_LABEL)
>>
    An exception leaves the appends already made in place. *)
Fixpoint merge_loop (st : solver) (s0 : nat) (ordered : list nat) : solver * option exn :=
  match ordered with
  | [] => (st, None)
  | s1 :: rest =>
      match extract (rag st) s0 s1 with
      | None => (st, Some KeyError)
      | Some f =>
          let st1 := log_merge (log_example st f MERGE_LABEL) (s0, s1) in
          let (g', n) := merge_nodes (rag st1) s0 s1 in
          merge_loop (set_rag st1 g') n rest
      end
  end.

(** [Solver.learn_merge]. *)
Definition learn_merge (st : solver) (segments : list nat) : solver * option exn :=
  let segs := py_set (map (anc (rag st)) segments) in
  let ns := sub_nodes (rag st) segs in
  let ordered := dfs_preorder_nodes ns (sub_nbrs (rag st) ns) in
  match ordered with
  | [] => (st, Some StopIteration)          (* next(ordered) *)
  | s0 :: rest => merge_loop st s0 rest
  end.

(** Lines the Solver prints on the operator console. *)
Inductive console :=
| FailedToSplit (s0 s1 f0 f1 : nat)
| NotRecognized (command : string).

(** [Solver.learn_separation]; [fragments] is the JSON list unpacked by
    [f0, f1 = fragments]. *)
Definition learn_separation (st : solver) (fragments : list nat)
  : solver * option exn * list console :=
  match fragments with
  | [f0; f1] =>
      if Nat.eqb (boundary_body (rag st)) f0 || Nat.eqb (boundary_body (rag st)) f1
      then (st, None, [])
      else
        let (g', s) := separate_fragments (rag st) f0 f1 in
        let (s0, s1) := s in
        let st1 := set_rag st g' in
        match extract g' s0 s1 with
        | None => (st1, None, [FailedToSplit s0 s1 f0 f1])
        | Some f => (log_separation (log_example st1 f SEPAR_LABEL) (f0, f1), None, [])
        end
  | _ => (st, Some ValueError, [])
  end.

(** Calls the Solver makes on its collaborators, in the order made. *)
Inductive call :=
| CFit (fs : list Feature) (ts : list nat)
| CClassifierProbability
| CCopyOriginal
| CSetMergePriority
| CRebuildMergeQueue
| CAddExclusion (node i : nat)
| CReplayMergeHistory (h : list (nat * nat))
| CAgglomerate
| CGetMap.

(** [for i, (s0, s1) in enumerate(self.separate)]: tag both nodes. *)
Fixpoint tag_exclusions (g : Rag) (i : nat) (seps : list (nat * nat)) : Rag * list call :=
  match seps with
  | [] => (g, [])
  | (s0, s1) :: rest =>
      let g1 := add_exclusion (add_exclusion g s0 i) s1 i in
      let (g2, cs) := tag_exclusions g1 (S i) rest in
      (g2, [CAddExclusion s0 i; CAddExclusion s1 i] ++ cs)
  end.

(** [Solver.relearn]. *)
Definition relearn (st : solver) : solver * list call :=
  let clf := fit (features st) (targets st) in
  let pol := Some clf in          (* agglo.classifier_probability(fm, clf) *)
  let g0 := original_rag st in    (* self.original_rag.copy() *)
  let (g1, cs) := tag_exclusions g0 0 (separate st) in
  let g2 := replay_merge_history g1 (history st) in
  ({| rag := g2; original_rag := original_rag st; history := history st;
      separate := separate st; features := features st; targets := targets st;
      policy := pol; relearn_threshold := relearn_threshold st;
      relearn_trigger := relearn_trigger st |},
   [CFit (features st) (targets st); CClassifierProbability; CCopyOriginal;
    CSetMergePriority; CRebuildMergeQueue] ++ cs ++ [CReplayMergeHistory (history st)]).

(** The [fragment-segment-lut] message. *)
Record lut := mkLut { lut_fragments : list nat; lut_segments : list nat }.

(** [Solver.send_segmentation]. *)
Definition send_segmentation (st : solver) : solver * list call * lut :=
  let (st1, cs) := relearn st in
  let g := agglomerate (rag st1) in
  let dst := get_map g in
  let src := seq 0 (length dst) in
  (set_rag st1 g, cs ++ [CAgglomerate; CGetMap], {| lut_fragments := src; lut_segments := dst |}).

(** ** The session loop *)

(** A JSON message [{'type': ..., 'data': ...}]; [data] is modelled by
    the one field the handlers read. *)
Inductive payload :=
| Segments (l : list nat)      (* {'segments': [...]} *)
| What (w : string)            (* {'what': ...} *)
| NoFields.                    (* {} *)

Record message := mkMessage { mtype : string; mdata : payload }.

(** How [listen] returns: on [stop] or an unrecognised command, by an
    exception escaping a handler, or still blocked in [recv_json] when
    the client has sent nothing more. *)
Inductive outcome :=
| Stopped
| Raised (e : exn)
| Waiting.

Definition prepend (c : list console) (l : list lut)
  (r : solver * list console * list lut * outcome) :=
  let '(st, c', l', o) := r in (st, c ++ c', l ++ l', o).

(** [Solver.listen] over the messages the client sends, in order; it
    returns the final state, the console lines, the look-up tables sent
    and how the loop ended. *)
Fixpoint listen (st : solver) (msgs : list message)
  : solver * list console * list lut * outcome :=
  match msgs with
  | [] => (st, [], [], Waiting)
  | m :: rest =>
      if String.eqb (mtype m) "merge" then
        match mdata m with
        | Segments segs =>
            let (st', r) := learn_merge st segs in
            match r with
            | None => listen st' rest
            | Some e => (st', [], [], Raised e)
            end
        | _ => (st, [], [], Raised KeyError)
        end
      else if String.eqb (mtype m) "separate" then
        match mdata m with
        | Segments segs =>
            let '(st', r, c) := learn_separation st segs in
            match r with
            | None => prepend c [] (listen st' rest)
            | Some e => (st', c, [], Raised e)
            end
        | _ => (st, [], [], Raised KeyError)
        end
      else if String.eqb (mtype m) "request" then
        match mdata m with
        | What w =>
            if String.eqb w "fragment-segment-lut" then
              let '(st', _, l) := send_segmentation st in
              prepend [] [l] (listen st' rest)
            else listen st rest
        | _ => (st, [], [], Raised KeyError)
        end
      else if String.eqb (mtype m) "stop" then (st, [], [], Stopped)
      else (st, [NotRecognized (mtype m)], [], Stopped)
  end.

End Solver.

Arguments rag {Feature Classifier}.
Arguments original_rag {Feature Classifier}.
Arguments history {Feature Classifier}.
Arguments separate {Feature Classifier}.
Arguments features {Feature Classifier}.
Arguments targets {Feature Classifier}.
Arguments policy {Feature Classifier}.
Arguments relearn_threshold {Feature Classifier}.
Arguments relearn_trigger {Feature Classifier}.
Arguments set_rag {Feature Classifier}.
Arguments log_example {Feature Classifier}.
Arguments log_merge {Feature Classifier}.
Arguments log_separation {Feature Classifier}.
Arguments extract {Feature}.
Arguments merge_loop {Feature} _ {Classifier}.
Arguments learn_merge {Feature} _ {Classifier}.
Arguments learn_separation {Feature} _ {Classifier}.
Arguments tag_exclusions {Feature}.
Arguments relearn {Feature Classifier}.
Arguments send_segmentation {Feature Classifier}.
Arguments listen {Feature} _ {Classifier}.
Arguments prepend {Feature Classifier}.

(** ** The proofreading simulator ([proofread]) *)

Section Simulator.

(** Modelled from the spec: [agglo2.best_segmentation] (the ground truth
    aligned to the fragments) and the neighbours of a fragment in
    [agglo2.fast_rag(fragments)].  Images are flat lists of labels. *)
Variable best_segmentation : list nat -> list nat -> list nat.
Variable fast_rag_nbrs : list nat -> nat -> list nat.

(** The random state: the draw made for index [i] of the shuffle. *)
Variable rand : nat -> nat.

(** [np.unique]: the sorted distinct labels. *)
Definition np_unique (l : list nat) : list nat := NatSort.sort (nodup Nat.eq_dec l).

(** [x[i], x[j] = x[j], x[i]]. *)
Definition swap (x : list nat) (i j : nat) : list nat :=
  let xi := nth i x 0 in
  let xj := nth j x 0 in
  map (fun kv => if Nat.eqb (fst kv) i then xj
                 else if Nat.eqb (fst kv) j then xi else snd kv)
      (combine (seq 0 (length x)) x).

(** [random.shuffle(x)]: Fisher-Yates from the last index down to 1,
    swapping index [i] with a draw [j] in [0..i]. *)
Fixpoint shuffle_from (i : nat) (x : list nat) : list nat :=
  match i with
  | O => x
  | S i' => shuffle_from i' (swap x i (rand i mod S i))
  end.

Definition shuffle (x : list nat) : list nat := shuffle_from (length x - 1) x.

(** [ctable.getcol(label).indices]: the fragments overlapping [label] in
    the contingency table of [fragments] against [true]. *)
Definition column_indices (fragments true : list nat) (label : nat) : list nat :=
  np_unique (map fst (filter (fun p => Nat.eqb (snd p) label) (combine fragments true))).

(** The [separate] messages sent for every boundary pair of a merged set. *)
Definition boundary_separations (nbrs : nat -> list nat) (components : list nat)
  : list message :=
  flat_map (fun fragment =>
              flat_map (fun neighbor =>
                          if memb neighbor components then []
                          else [mkMessage "separate" (Segments [fragment; neighbor])])
                       (nbrs fragment))
           components.

(** The messages [proofread] sends, in order:
    the loop over [zip(range(num_operations), true_labels)], the
    request for the look-up table, and the optional [stop]. *)
Definition proofread_sent (fragments true_segmentation : list nat)
  (num_operations : nat) (stop_when_finished : bool) : list message :=
  let true := best_segmentation fragments true_segmentation in
  let base_nbrs := fast_rag_nbrs fragments in
  let true_labels := shuffle (np_unique true) in
  flat_map (fun p =>
              let components := column_indices fragments true (snd p) in
              mkMessage "merge" (Segments components)
                :: boundary_separations base_nbrs components)
           (combine (seq 0 num_operations) true_labels)
  ++ [mkMessage "request" (What "fragment-segment-lut")]
  ++ (if stop_when_finished then [mkMessage "stop" NoFields] else []).

End Simulator.

Definition count_type (t : string) (msgs : list message) : nat :=
  length (filter (fun m => String.eqb (mtype m) t) msgs).

(** ** Connectivity of a selection *)

(** An edge of the subgraph induced by the selection [S]. *)
Definition sel_edge (g : Rag) (S : list nat) (a b : nat) : Prop :=
  In a S /\ In b S /\ adjb g a b = true.

(** The subgraph induced by [S] is connected. *)
Definition connected (g : Rag) (S : list nat) : Prop :=
  forall a b, In a S -> In b S -> clos_refl_trans nat (sel_edge g S) a b.

(** Every pair of [h], merged in order from [g], joins two nodes that
    are adjacent in the graph of the moment. *)
Fixpoint adjacent_merges (g : Rag) (h : list (nat * nat)) : bool :=
  match h with
  | [] => true
  | p :: rest => adjb g (fst p) (snd p)
                 && adjacent_merges (fst (merge_nodes g (fst p) (snd p))) rest
  end.

Arguments CFit {Feature}.
Arguments CClassifierProbability {Feature}.
Arguments CCopyOriginal {Feature}.
Arguments CSetMergePriority {Feature}.
Arguments CRebuildMergeQueue {Feature}.
Arguments CAddExclusion {Feature}.
Arguments CReplayMergeHistory {Feature}.
Arguments CAgglomerate {Feature}.
Arguments CGetMap {Feature}.

(** ** The order of [relearn], written after the spec

    Train on all [(features, targets)], install the policy, copy the
    original graph, install the priority function, rebuild the queue;
    for every recorded separation [i] with fragments [(f0, f1)] tag both
    with exclusion [i]; replay the whole merge history in order. *)
Definition relearn_spec_calls {Feature Classifier} (st : solver Feature Classifier)
  : list (call Feature) :=
  [CFit (features st) (targets st); CClassifierProbability; CCopyOriginal;
   CSetMergePriority; CRebuildMergeQueue]
  ++ flat_map (fun ip => [CAddExclusion (fst (snd ip)) (fst ip);
                          CAddExclusion (snd (snd ip)) (fst ip)])
              (combine (seq 0 (length (separate st))) (separate st))
  ++ [CReplayMergeHistory (history st)].

(** The fresh copy of the original graph with every separation tagged. *)
Definition tagged_original {Feature Classifier} (st : solver Feature Classifier) : Rag :=
  fold_left (fun g ip => add_exclusion (add_exclusion g (fst (snd ip)) (fst ip))
                                       (snd (snd ip)) (fst ip))
            (combine (seq 0 (length (separate st))) (separate st))
            (original_rag st).

(** ** The correction log *)

(** As many feature vectors as labels; as many MERGE labels as merge
    history pairs; as many SEPAR labels as recorded separations. *)
Definition log_inv {Feature Classifier} (st : solver Feature Classifier) : Prop :=
  length (features st) = length (targets st) /\
  count_occ Nat.eq_dec (targets st) MERGE_LABEL = length (history st) /\
  count_occ Nat.eq_dec (targets st) SEPAR_LABEL = length (separate st).

(** ** A small instance: the path 1 - 2 - 3 - 4 *)

(** Four fragments in a row, each its own segment; 0 is the boundary. *)
Definition path_rag : Rag :=
  {| nodes := [1; 2; 3; 4]; anc := fun x => x; fedges := [(1, 2); (2, 3); (3, 4)];
     next := 5; boundary_body := 0; exclusions := fun _ => [] |}.

(** A feature vector naming the edge, a classifier keeping the labels. *)
Definition ex_fv (g : Rag) (a b : nat) : nat * nat := (a, b).
Definition ex_fit (fs : list (nat * nat)) (ts : list nat) : list nat := ts.

(** [separate_fragments] on a graph whose fragments are not merged
    returns the graph and the fragments' own nodes. *)
Definition ex_separate_fragments (g : Rag) (f0 f1 : nat) : Rag * (nat * nat) :=
  (g, (anc g f0, anc g f1)).

(** Agglomeration at a threshold no edge reaches, and the segment map
    indexed by every id the merge tree has handed out. *)
Definition ex_agglomerate (g : Rag) : Rag := g.
Definition ex_get_map (g : Rag) : list nat := map (anc g) (seq 0 (next g)).

Definition st0 : solver (nat * nat) (list nat) :=
  {| rag := path_rag; original_rag := path_rag; history := []; separate := [];
     features := []; targets := []; policy := None;
     relearn_threshold := 20; relearn_trigger := 20 |}.

(** A short session: merge 1 and 2, separate 1 from 3, ask for the
    look-up table and for something the Solver does not send. *)
Definition ex_msgs : list message :=
  [mkMessage "merge" (Segments [1; 2]); mkMessage "separate" (Segments [1; 3]);
   mkMessage "request" (What "fragment-segment-lut"); mkMessage "request" (What "graph")].

(** ** The Solver's construction *)

(** [Solver.__init__] with [_build_rag]: [g] is the graph
    [agglo.Rag(labels, image, ...)] builds and [original_rag] its copy;
    the logs start empty and the relearn trigger at the threshold.  The
    socket is not modelled, and [self.policy] is not set ([None]). *)
Definition init_solver {Feature Classifier} (g : Rag) (relearn_threshold : nat)
  : solver Feature Classifier :=
  {| rag := g; original_rag := g; history := []; separate := [];
     features := []; targets := []; policy := None;
     relearn_threshold := relearn_threshold; relearn_trigger := relearn_threshold |}.

(** The state [listen] ends in. *)
Definition listen_state {Feature Classifier}
  (r : solver Feature Classifier * list console * list lut * outcome)
  : solver Feature Classifier :=
  let '(st, _, _, _) := r in st.

Definition listen_outcome {Feature Classifier}
  (r : solver Feature Classifier * list console * list lut * outcome) : outcome :=
  let '(_, _, _, o) := r in o.

(** A [request] for the look-up table. *)
Definition is_lut_request (m : message) : bool :=
  String.eqb (mtype m) "request"%string &&
  match mdata m with
  | What w => String.eqb w "fragment-segment-lut"%string
  | _ => false
  end.

(** A message type [listen] has a handler for. *)
Definition handled_type (m : message) : bool :=
  String.eqb (mtype m) "merge"%string || String.eqb (mtype m) "separate"%string
  || String.eqb (mtype m) "request"%string.

(** * Proofs *)

(** ** Lists *)

Lemma memb_In (v : nat) (l : list nat) : memb v l = true <-> In v l.
Proof.
  unfold memb. rewrite existsb_exists. split.
  - intros [x [Hx Heq]]. apply Nat.eqb_eq in Heq. subst. exact Hx.
  - intros H. exists v. split; [exact H | apply Nat.eqb_refl].
Qed.

Lemma memb_false (v : nat) (l : list nat) : memb v l = false <-> ~ In v l.
Proof.
  rewrite <- memb_In. destruct (memb v l); split; congruence.
Qed.

Lemma fold_left_inv {A B : Type} (step : A -> B -> A) (P : A -> Prop) :
  forall l a, P a -> (forall acc c, In c l -> P acc -> P (step acc c)) ->
  P (fold_left step l a).
Proof.
  induction l as [|b l IH]; simpl; intros a Ha Hstep.
  - exact Ha.
  - apply IH.
    + apply Hstep; auto.
    + intros acc c Hc. apply Hstep. right. exact Hc.
Qed.

Lemma filter_length_le {A : Type} (f g : A -> bool) (l : list A) :
  (forall x, In x l -> f x = true -> g x = true) ->
  length (filter f l) <= length (filter g l).
Proof.
  induction l as [|a l IH]; simpl; intros H; [lia|].
  destruct (f a) eqn:Ef.
  - rewrite (H a (or_introl eq_refl) Ef). simpl.
    apply le_n_S, IH. intros x Hx. apply H. right. exact Hx.
  - destruct (g a); simpl.
    + apply le_S, IH. intros x Hx. apply H. right. exact Hx.
    + apply IH. intros x Hx. apply H. right. exact Hx.
Qed.

Lemma filter_length_lt {A : Type} (f g : A -> bool) (l : list A) (c : A) :
  (forall x, In x l -> f x = true -> g x = true) ->
  In c l -> f c = false -> g c = true ->
  length (filter f l) < length (filter g l).
Proof.
  induction l as [|a l IH]; simpl; intros H Hc Hf Hg; [contradiction|].
  destruct Hc as [<- | Hc].
  - rewrite Hf, Hg. simpl. apply le_n_S, filter_length_le.
    intros x Hx. apply H. right. exact Hx.
  - assert (Hl : forall x, In x l -> f x = true -> g x = true)
      by (intros x Hx; apply H; right; exact Hx).
    specialize (IH Hl Hc Hf Hg).
    destruct (f a) eqn:Ef.
    + rewrite (H a (or_introl eq_refl) Ef). simpl. lia.
    + destruct (g a); simpl; lia.
Qed.

(** ** Depth-first search *)

(** [chain R M L]: every element of [L] has an [R]-predecessor among
    [M] and the elements of [L] before it. *)
Inductive chain (R : nat -> nat -> Prop) : list nat -> list nat -> Prop :=
| chain_nil M : chain R M []
| chain_cons M v L :
    (exists t, In t M /\ R t v) -> chain R (M ++ [v]) L -> chain R M (v :: L).

Lemma chain_app (R : nat -> nat -> Prop) (M L1 L2 : list nat) :
  chain R M L1 -> chain R (M ++ L1) L2 -> chain R M (L1 ++ L2).
Proof.
  intros H. revert L2. induction H as [M|M v L Hv HL IH]; intros L2 H2.
  - rewrite app_nil_r in H2. exact H2.
  - simpl. constructor; [exact Hv|]. apply IH.
    rewrite <- app_assoc. exact H2.
Qed.

Section DFS.

Variable nbrs : nat -> list nat.

Definition dfs_step (f : nat) (acc : list nat) (c : nat) : list nat :=
  if memb c acc then acc else dfs_visit nbrs f c (acc ++ [c]).

Lemma dfs_visit_unfold (f v : nat) (vis : list nat) :
  dfs_visit nbrs (S f) v vis = fold_left (dfs_step f) (nbrs v) vis.
Proof. reflexivity. Qed.

(** The search only appends, without duplicates, and each node it
    appends is a neighbour of one visited before it. *)
Lemma dfs_visit_chain (f v : nat) (vis : list nat) :
  In v vis -> NoDup vis ->
  exists new, dfs_visit nbrs f v vis = vis ++ new /\
              NoDup (vis ++ new) /\
              chain (fun t x => In x (nbrs t)) vis new.
Proof.
  revert v vis. induction f as [|f IH]; intros v vis Hv Hnd.
  - exists []. rewrite app_nil_r. repeat split; [exact Hnd | constructor].
  - rewrite dfs_visit_unfold.
    apply (fold_left_inv (dfs_step f)
             (fun acc => exists new, acc = vis ++ new /\ NoDup (vis ++ new) /\
                                      chain (fun t x => In x (nbrs t)) vis new)).
    + exists []. rewrite app_nil_r. repeat split; [exact Hnd | constructor].
    + intros acc c Hc [new [-> [Hnd' Hch]]]. unfold dfs_step.
      destruct (memb c (vis ++ new)) eqn:Em.
      * exists new. auto.
      * apply memb_false in Em.
        assert (Hin : In c ((vis ++ new) ++ [c])) by (apply in_or_app; right; left; reflexivity).
        assert (Hnd2 : NoDup ((vis ++ new) ++ [c])).
        { apply NoDup_app; [exact Hnd' | constructor; [intros []|constructor] |].
          intros x Hx [<- | []]. contradiction. }
        destruct (IH c _ Hin Hnd2) as [new2 [Heq [Hnd3 Hch2]]].
        exists (new ++ [c] ++ new2). rewrite Heq.
        repeat rewrite <- app_assoc. split; [reflexivity|split].
        -- rewrite <- !app_assoc in Hnd3. exact Hnd3.
        -- apply chain_app; [exact Hch|]. simpl. constructor.
           ++ exists v. split; [apply in_or_app; left; exact Hv | exact Hc].
           ++ exact Hch2.
Qed.

Lemma dfs_visit_ext (f v : nat) (vis : list nat) :
  exists new, dfs_visit nbrs f v vis = vis ++ new.
Proof.
  revert v vis. induction f as [|f IH]; intros v vis.
  - exists []. rewrite app_nil_r. reflexivity.
  - rewrite dfs_visit_unfold.
    apply (fold_left_inv (dfs_step f) (fun acc => exists new, acc = vis ++ new)).
    + exists []. rewrite app_nil_r. reflexivity.
    + intros acc c _ [new ->]. unfold dfs_step.
      destruct (memb c (vis ++ new)).
      * exists new. reflexivity.
      * destruct (IH c ((vis ++ new) ++ [c])) as [new2 ->].
        exists (new ++ [c] ++ new2). rewrite <- !app_assoc. reflexivity.
Qed.

Lemma dfs_step_incl (f : nat) (acc : list nat) (c : nat) :
  incl acc (dfs_step f acc c) /\ In c (dfs_step f acc c).
Proof.
  unfold dfs_step. destruct (memb c acc) eqn:E.
  - split; [apply incl_refl | apply memb_In; exact E].
  - destruct (dfs_visit_ext f c (acc ++ [c])) as [new ->].
    split.
    + intros x Hx. apply in_or_app. left. apply in_or_app. left. exact Hx.
    + apply in_or_app. left. apply in_or_app. right. left. reflexivity.
Qed.

Lemma fold_dfs_step_incl (f : nat) (l acc : list nat) :
  incl acc (fold_left (dfs_step f) l acc) /\ incl l (fold_left (dfs_step f) l acc).
Proof.
  revert acc. induction l as [|c l IH]; simpl; intros acc.
  - split; [apply incl_refl | intros x []].
  - destruct (IH (dfs_step f acc c)) as [H1 H2].
    destruct (dfs_step_incl f acc c) as [H3 H4]. split.
    + intros x Hx. apply H1, H3, Hx.
    + intros x [<- | Hx]; [apply H1, H4 | apply H2, Hx].
Qed.

Variable U : list nat.
Hypothesis nbrs_U : forall v, incl (nbrs v) U.

(** The nodes of [U] not visited yet. *)
Definition unvisited (vis : list nat) : nat :=
  length (filter (fun x => negb (memb x vis)) U).

Lemma unvisited_mono (a b : list nat) : incl a b -> unvisited b <= unvisited a.
Proof.
  intros H. unfold unvisited. apply filter_length_le.
  intros x _ Hx. apply negb_true_iff, memb_false in Hx.
  apply negb_true_iff, memb_false. intros Ha. apply Hx, H, Ha.
Qed.

Lemma unvisited_add (a : list nat) (c : nat) :
  In c U -> ~ In c a -> unvisited (a ++ [c]) < unvisited a.
Proof.
  intros HU Ha. unfold unvisited. apply (filter_length_lt _ _ _ c).
  - intros x _ Hx. apply negb_true_iff, memb_false in Hx.
    apply negb_true_iff, memb_false. intros Hx'. apply Hx, in_or_app. left. exact Hx'.
  - exact HU.
  - apply negb_false_iff, memb_In, in_or_app. right. left. reflexivity.
  - apply negb_true_iff, memb_false. exact Ha.
Qed.

Lemma dfs_visit_incl (f v : nat) (vis : list nat) :
  incl vis U -> incl (dfs_visit nbrs f v vis) U.
Proof.
  revert v vis. induction f as [|f IH]; intros v vis Hvis; [exact Hvis|].
  rewrite dfs_visit_unfold.
  apply (fold_left_inv (dfs_step f) (fun acc => incl acc U)); [exact Hvis|].
  intros acc c Hc Hacc. unfold dfs_step. destruct (memb c acc); [exact Hacc|].
  apply IH. intros x Hx. apply in_app_or in Hx. destruct Hx as [Hx | [<- | []]].
  - apply Hacc, Hx.
  - apply (nbrs_U v), Hc.
Qed.

(** With fuel exceeding the number of unvisited nodes, the search is
    complete: the neighbours of [v] and of every node it appends are
    visited when it returns. *)
Lemma dfs_visit_closed (f v : nat) (vis : list nat) :
  unvisited vis < f -> In v vis -> incl vis U ->
  forall x, x = v \/ (In x (dfs_visit nbrs f v vis) /\ ~ In x vis) ->
  incl (nbrs x) (dfs_visit nbrs f v vis).
Proof.
  revert v vis. induction f as [|f IH]; intros v vis Hf Hv Hvis; [lia|].
  rewrite dfs_visit_unfold.
  pose (P := fun acc => incl vis acc /\ incl acc U /\ unvisited acc <= unvisited vis /\
              (forall x, In x acc -> ~ In x vis -> incl (nbrs x) acc)).
  assert (HP : P (fold_left (dfs_step f) (nbrs v) vis)).
  { apply fold_left_inv.
    - split; [apply incl_refl|]. split; [exact Hvis|]. split; [lia|].
      intros x Hx Hx'. contradiction.
    - intros acc c Hc [Hva [HaU [Hun Hcl]]]. unfold dfs_step.
      destruct (memb c acc) eqn:Em; [repeat split; assumption|].
      apply memb_false in Em.
      assert (HcU : In c U) by (apply (nbrs_U v), Hc).
      assert (Hlt : unvisited (acc ++ [c]) < f)
        by (pose proof (unvisited_add acc c HcU Em); lia).
      assert (Hin : In c (acc ++ [c])) by (apply in_or_app; right; left; reflexivity).
      assert (HU2 : incl (acc ++ [c]) U).
      { intros y Hy. apply in_app_or in Hy. destruct Hy as [Hy | [<- | []]];
          [apply HaU, Hy | exact HcU]. }
      destruct (dfs_visit_ext f c (acc ++ [c])) as [new Hnew].
      assert (Hsub : incl acc (dfs_visit nbrs f c (acc ++ [c]))).
      { rewrite Hnew. intros y Hy. apply in_or_app. left. apply in_or_app. left. exact Hy. }
      split; [intros y Hy; apply Hsub, Hva, Hy|].
      split; [apply dfs_visit_incl, HU2|].
      split; [pose proof (unvisited_mono _ _ Hsub); lia|].
      intros x Hx Hxv.
      destruct (in_dec Nat.eq_dec x acc) as [Hxa | Hxa].
      + intros y Hy. apply Hsub, (Hcl x Hxa Hxv), Hy.
      + destruct (Nat.eq_dec x c) as [-> | Hxc].
        * apply (IH c (acc ++ [c]) Hlt Hin HU2). left. reflexivity.
        * apply (IH c (acc ++ [c]) Hlt Hin HU2). right. split; [exact Hx|].
          intros Hy. apply in_app_or in Hy. destruct Hy as [Hy | [Hy | []]];
            [contradiction | congruence]. }
  destruct HP as [_ [_ [_ Hcl]]].
  intros x [-> | [Hx Hxv]].
  - apply fold_dfs_step_incl.
  - apply Hcl; assumption.
Qed.

Lemma unvisited_nil : unvisited [] = length U.
Proof.
  unfold unvisited.
  assert (H : forall l, filter (fun x => negb (memb x [])) l = l).
  { induction l as [|a l IH]; [reflexivity|].
    cbn [filter]. change (negb (memb a [])) with true. rewrite IH. reflexivity. }
  rewrite H. reflexivity.
Qed.

Lemma dfs_preorder_step (ns : list nat) :
  dfs_preorder_nodes ns nbrs = fold_left (dfs_step (length ns)) ns [].
Proof. reflexivity. Qed.

(** The preorder starts with the whole search tree of the first node
    [n0], closed under the neighbour relation, and lists every node of
    [U] once. *)
Lemma dfs_preorder_split (n0 : nat) (ns' : list nat) :
  U = n0 :: ns' -> NoDup U ->
  exists T R,
    dfs_preorder_nodes U nbrs = (n0 :: T) ++ R /\
    NoDup ((n0 :: T) ++ R) /\
    (forall x, In x ((n0 :: T) ++ R) <-> In x U) /\
    chain (fun t x => In x (nbrs t)) [n0] T /\
    (forall x, In x (n0 :: T) -> incl (nbrs x) (n0 :: T)).
Proof.
  intros HU Hnd.
  assert (Hn0 : In n0 U) by (rewrite HU; left; reflexivity).
  destruct (dfs_visit_chain (length U) n0 [n0] (or_introl eq_refl) (NoDup_cons _ (@in_nil _ _) (NoDup_nil _)))
    as [T [HT [HndT HchT]]].
  assert (Hfuel : unvisited [n0] < length U).
  { pose proof (unvisited_add [] n0 Hn0 (@in_nil _ _)) as H. rewrite unvisited_nil in H. exact H. }
  assert (HI0 : incl [n0] U) by (intros x [<- | []]; exact Hn0).
  pose proof (dfs_visit_closed (length U) n0 [n0] Hfuel (or_introl eq_refl) HI0) as Hcl.
  rewrite HT in Hcl.
  set (A := fold_left (dfs_step (length U)) ns' ([n0] ++ T)).
  assert (HA : dfs_preorder_nodes U nbrs = A).
  { rewrite dfs_preorder_step. rewrite HU at 2. simpl.
    unfold dfs_step at 2. simpl. rewrite HT. reflexivity. }
  assert (HAinv : (exists R, A = ([n0] ++ T) ++ R) /\ NoDup A /\ incl A U).
  { apply fold_left_inv.
    - split; [exists []; rewrite app_nil_r; reflexivity|]. split; [exact HndT|].
      rewrite <- HT. apply dfs_visit_incl, HI0.
    - intros acc c Hc [[R ->] [HndA HAU]]. unfold dfs_step.
      destruct (memb c (([n0] ++ T) ++ R)) eqn:Em; [split; [exists R; reflexivity | split; assumption]|].
      apply memb_false in Em.
      assert (HcU : In c U) by (rewrite HU; right; exact Hc).
      assert (Hnd2 : NoDup ((([n0] ++ T) ++ R) ++ [c])).
      { apply NoDup_app; [exact HndA | constructor; [intros []|constructor] |].
        intros x Hx [<- | []]. contradiction. }
      assert (Hinc : In c ((([n0] ++ T) ++ R) ++ [c]))
        by (apply in_or_app; right; left; reflexivity).
      destruct (dfs_visit_chain (length U) c _ Hinc Hnd2)
        as [new [Hnew [Hnd3 _]]].
      rewrite Hnew. split; [exists (R ++ [c] ++ new); rewrite <- !app_assoc; reflexivity|].
      split; [exact Hnd3|].
      rewrite <- Hnew. apply dfs_visit_incl.
      intros y Hy. apply in_app_or in Hy. destruct Hy as [Hy | [<- | []]];
        [apply HAU, Hy | exact HcU]. }
  destruct HAinv as [[R HR] [HndA HAU]].
  assert (Hall : incl ns' A) by apply fold_dfs_step_incl.
  rewrite HR in HndA, HAU, Hall. rewrite HR in HA.
  exists T, R. split; [exact HA|]. split; [exact HndA|].
  split.
  - intros x. split; [intros Hx; apply HAU, Hx|].
    intros Hx. rewrite HU in Hx. destruct Hx as [<- | Hx]; [left; reflexivity|].
    apply Hall, Hx.
  - split; [exact HchT|].
    intros x Hx. apply Hcl. destruct Hx as [<- | Hx]; [left; reflexivity|].
    right. split; [right; exact Hx|].
    intros [<- | []]. apply NoDup_cons_iff in HndT. destruct HndT as [HndT _]. contradiction.
Qed.

End DFS.

(** ** Adjacency in the graph *)

Lemma adjb_true (g : Rag) (a b : nat) :
  adjb g a b = true <->
  a <> b /\ exists e, In e (fedges g) /\
    ((anc g (fst e) = a /\ anc g (snd e) = b) \/ (anc g (fst e) = b /\ anc g (snd e) = a)).
Proof.
  unfold adjb. rewrite andb_true_iff, negb_true_iff, Nat.eqb_neq, existsb_exists.
  split; intros [Hne [e [He Ht]]]; split; try exact Hne; exists e; split; try exact He.
  - apply orb_true_iff in Ht. rewrite !andb_true_iff, !Nat.eqb_eq in Ht. exact Ht.
  - apply orb_true_iff. rewrite !andb_true_iff, !Nat.eqb_eq. exact Ht.
Qed.

Lemma adjb_sym (g : Rag) (a b : nat) : adjb g a b = adjb g b a.
Proof.
  apply eq_true_iff_eq. rewrite !adjb_true.
  split; intros [Hne [e [He Ht]]]; (split; [congruence|]); exists e; split; auto;
    destruct Ht as [Ht | Ht]; auto.
Qed.

Section MergeLoop.

Variable Feature : Type.
Variable feature_vector : Rag -> nat -> nat -> Feature.
Variable Classifier : Type.

(** The graph when [learn_merge] starts. *)
Variable g0 : Rag.
Hypothesis wf0 : wf_rag g0.

Definition endpoint (z : nat) : Prop :=
  exists w, In (z, w) (fedges g0) \/ In (w, z) (fedges g0).

Lemma endpoint_anc_lt (z : nat) : endpoint z -> anc g0 z < next g0.
Proof.
  intros [w [H | H]]; apply (proj2 wf0) in H; lia.
Qed.

(** The loop invariant: [b] is the node merged so far from the members
    [M] of the selection; every fragment on an edge whose ancestor was
    in [M] now has ancestor [b], the others kept theirs. *)
Definition loop_inv (st : solver Feature Classifier) (b : nat) (M : list nat) : Prop :=
  fedges (rag st) = fedges g0 /\
  (forall z, endpoint z -> anc (rag st) z = if memb (anc g0 z) M then b else anc g0 z) /\
  (In b M \/ next g0 <= b) /\
  next g0 <= next (rag st).

Lemma loop_inv_not_b (st : solver Feature Classifier) (b : nat) (M : list nat) (z : nat) :
  loop_inv st b M -> endpoint z -> ~ In (anc g0 z) M -> anc g0 z <> b.
Proof.
  intros [_ [_ [Hb _]]] Hz HM Heq. destruct Hb as [Hb | Hb].
  - apply HM. rewrite Heq. exact Hb.
  - pose proof (endpoint_anc_lt z Hz). lia.
Qed.

(** The merged node is adjacent to a member [s] not merged yet iff one
    of the merged members was adjacent to [s] in the starting graph. *)
Lemma adj_blob (st : solver Feature Classifier) (b : nat) (M : list nat) (s : nat) :
  loop_inv st b M -> ~ In s M -> s < next g0 ->
  (adjb (rag st) b s = true <-> exists t, In t M /\ adjb g0 t s = true).
Proof.
  intros HI HsM Hs. pose proof HI as [Hfe [Hanc [Hb _]]].
  assert (Hbs : b <> s).
  { intros <-. destruct Hb as [Hb | Hb]; [contradiction | lia]. }
  assert (Hend : forall e, In e (fedges g0) -> endpoint (fst e) /\ endpoint (snd e)).
  { intros [x y] He. split; [exists y; left | exists x; right]; exact He. }
  (* the ancestor of a fragment on an edge, now, is [b] or [s] *)
  assert (HisB : forall z, endpoint z -> (anc (rag st) z = b <-> In (anc g0 z) M)).
  { intros z Hz. rewrite (Hanc z Hz). destruct (memb (anc g0 z) M) eqn:E.
    - apply memb_In in E. tauto.
    - apply memb_false in E. pose proof (loop_inv_not_b st b M z HI Hz E). tauto. }
  assert (HisS : forall z, endpoint z -> (anc (rag st) z = s <-> anc g0 z = s)).
  { intros z Hz. rewrite (Hanc z Hz). destruct (memb (anc g0 z) M) eqn:E.
    - apply memb_In in E. split; intros H; [congruence|]. rewrite H in E. contradiction.
    - tauto. }
  rewrite adjb_true, Hfe. split.
  - intros [_ [e [He Ht]]]. destruct (Hend e He) as [H1 H2].
    destruct Ht as [[Hx Hy] | [Hx Hy]].
    + apply HisB in Hx; [|exact H1]. apply HisS in Hy; [|exact H2].
      exists (anc g0 (fst e)). split; [exact Hx|]. apply adjb_true.
      split; [intros Heq; apply HsM; rewrite <- Heq; exact Hx|].
      exists e. split; [exact He | left; split; [reflexivity | exact Hy]].
    + apply HisS in Hx; [|exact H1]. apply HisB in Hy; [|exact H2].
      exists (anc g0 (snd e)). split; [exact Hy|]. apply adjb_true.
      split; [intros Heq; apply HsM; rewrite <- Heq; exact Hy|].
      exists e. split; [exact He | right; split; [exact Hx | reflexivity]].
  - intros [t [Ht Hadj]]. apply adjb_true in Hadj. destruct Hadj as [_ [e [He Hc]]].
    destruct (Hend e He) as [H1 H2]. split; [exact Hbs|]. exists e. split; [exact He|].
    destruct Hc as [[Hx Hy] | [Hx Hy]].
    + left. split; [apply HisB; [exact H1 | rewrite Hx; exact Ht] | apply HisS; assumption].
    + right. split; [apply HisS; assumption | apply HisB; [exact H2 | rewrite Hy; exact Ht]].
Qed.

Lemma memb_app (x : nat) (l1 l2 : list nat) : memb x (l1 ++ l2) = memb x l1 || memb x l2.
Proof. unfold memb. apply existsb_app. Qed.

Lemma loop_inv_step (st st1 : solver Feature Classifier) (b : nat) (M : list nat) (v : nat) :
  loop_inv st b M -> rag st1 = rag st ->
  loop_inv (set_rag st1 (fst (merge_nodes (rag st) b v)))
           (snd (merge_nodes (rag st) b v)) (M ++ [v]).
Proof.
  intros HI Hr. pose proof HI as [Hfe [Hanc [Hb Hn]]].
  split; [exact Hfe|]. split; [|split; [right; exact Hn | simpl; lia]].
  intros z Hz. simpl. rewrite (Hanc z Hz), memb_app.
  destruct (memb (anc g0 z) M) eqn:E.
  - simpl. rewrite Nat.eqb_refl. simpl. reflexivity.
  - apply memb_false in E.
    assert (Hne : Nat.eqb (anc g0 z) b = false)
      by (apply Nat.eqb_neq, (loop_inv_not_b st b M z HI Hz E)).
    unfold memb. simpl. rewrite Hne. simpl. rewrite orb_false_r.
    destruct (Nat.eqb (anc g0 z) v) eqn:Ev; reflexivity.
Qed.

(** Along a list in which every member is adjacent to one merged before
    it, the loop merges and logs each member, one entry per member. *)
Lemma merge_loop_chain (M L : list nat) :
  chain (fun t x => adjb g0 t x = true) M L ->
  forall (st : solver Feature Classifier) (b : nat) (L2 : list nat),
  loop_inv st b M -> NoDup L ->
  (forall v, In v L -> v < next g0 /\ ~ In v M) ->
  exists st' b' hs fs,
    merge_loop feature_vector st b (L ++ L2) = merge_loop feature_vector st' b' L2 /\
    loop_inv st' b' (M ++ L) /\
    history st' = history st ++ hs /\ length hs = length L /\
    features st' = features st ++ fs /\ length fs = length L /\
    targets st' = targets st ++ repeat MERGE_LABEL (length L) /\
    separate st' = separate st.
Proof.
  intros H. induction H as [M | M v L Hv HL IH]; intros st b L2 HI Hnd HL'.
  - exists st, b, [], []. rewrite !app_nil_r.
    split; [reflexivity|]. split; [exact HI|]. repeat split.
  - destruct (HL' v (or_introl eq_refl)) as [Hvlt HvM].
    assert (Hadj : adjb (rag st) b v = true) by (apply (adj_blob st b M v HI HvM Hvlt), Hv).
    cbn [merge_loop app]. unfold extract. rewrite Hadj.
    set (st1 := log_merge (log_example st (feature_vector (rag st) b v) MERGE_LABEL) (b, v)).
    assert (Hr : rag st1 = rag st) by reflexivity.
    destruct (merge_nodes (rag st) b v) as [g' n] eqn:Em.
    pose proof (loop_inv_step st st1 b M v HI Hr) as HI1. rewrite Em in HI1. simpl in HI1.
    apply NoDup_cons_iff in Hnd. destruct Hnd as [HvL HndL].
    assert (HL1 : forall w, In w L -> w < next g0 /\ ~ In w (M ++ [v])).
    { intros w Hw. destruct (HL' w (or_intror Hw)) as [H1 H2]. split; [exact H1|].
      intros Hw'. apply in_app_or in Hw'. destruct Hw' as [Hw' | [<- | []]]; contradiction. }
    destruct (IH (set_rag st1 g') n L2 HI1 HndL HL1)
      as [st' [b' [hs [fs [Hrun [HI' [Hh [Hhl [Hf [Hfl [Ht Hs]]]]]]]]]]].
    exists st', b', ((b, v) :: hs), (feature_vector (rag st) b v :: fs).
    rewrite <- app_assoc in HI'. simpl in HI', Hh, Hf, Ht, Hs.
    split; [rewrite Hr, Em; exact Hrun|]. split; [exact HI'|]. split; [|split; [|split; [|split; [|split]]]].
    + rewrite Hh. rewrite <- app_assoc. reflexivity.
    + simpl. rewrite Hhl. reflexivity.
    + rewrite Hf. rewrite <- app_assoc. reflexivity.
    + simpl. rewrite Hfl. reflexivity.
    + rewrite Ht. rewrite <- app_assoc. reflexivity.
    + exact Hs.
Qed.

(** At a member adjacent to none of the merged ones, the feature
    extraction raises [KeyError]. *)
Lemma merge_loop_stuck (st : solver Feature Classifier) (b : nat) (M : list nat)
  (r : nat) (L : list nat) :
  loop_inv st b M -> ~ In r M -> r < next g0 ->
  (forall t, In t M -> adjb g0 t r = false) ->
  merge_loop feature_vector st b (r :: L) = (st, Some KeyError).
Proof.
  intros HI HrM Hr Hno. simpl. unfold extract.
  destruct (adjb (rag st) b r) eqn:E; [|reflexivity].
  apply (adj_blob st b M r HI HrM Hr) in E. destruct E as [t [Ht Hadj]].
  rewrite (Hno t Ht) in Hadj. discriminate.
Qed.

(** What the loop has done to the graph: every id whose ancestor was a
    member of [M] now has ancestor [b], the others kept theirs; [b] is
    live, the members other than [b] are not, and every other node of
    the starting graph still is. *)
Definition graph_inv (st : solver Feature Classifier) (b : nat) (M : list nat) : Prop :=
  (forall z, anc g0 z < next g0 ->
             anc (rag st) z = if memb (anc g0 z) M then b else anc g0 z) /\
  In b (nodes (rag st)) /\
  (forall v, In v (nodes g0) -> ~ In v M -> In v (nodes (rag st))) /\
  (forall v, In v M -> v <> b -> ~ In v (nodes (rag st))) /\
  (forall v, In v M -> v < next g0).

Lemma graph_inv_step (st st1 : solver Feature Classifier) (b : nat) (M : list nat) (v : nat) :
  loop_inv st b M -> graph_inv st b M -> v < next g0 -> ~ In v M ->
  graph_inv (set_rag st1 (fst (merge_nodes (rag st) b v)))
            (snd (merge_nodes (rag st) b v)) (M ++ [v]).
Proof.
  intros HI [Hanc [Hb [Hkeep [Hgone HM]]]] Hv HvM.
  pose proof HI as [_ [_ [HbM Hn]]].
  assert (Hneb : forall x, x < next g0 -> ~ In x M -> x <> b).
  { intros x Hx HxM ->. destruct HbM as [HbM | HbM]; [contradiction | lia]. }
  unfold set_rag, merge_nodes. split; [|split; [|split; [|split]]].
  - intros z Hz. cbn [rag anc fst snd]. rewrite (Hanc z Hz), memb_app.
    destruct (memb (anc g0 z) M) eqn:E.
    + rewrite Nat.eqb_refl. reflexivity.
    + apply memb_false in E.
      rewrite (proj2 (Nat.eqb_neq _ _) (Hneb _ Hz E)). unfold memb. simpl.
      destruct (Nat.eqb (anc g0 z) v); reflexivity.
  - cbn [rag nodes fst snd]. apply in_or_app. right. left. reflexivity.
  - intros w Hw HwM. cbn [rag nodes fst snd]. apply in_or_app. left. apply filter_In. split.
    + apply Hkeep; [exact Hw|]. intros H. apply HwM, in_or_app. left. exact H.
    + assert (Hwn : w < next g0) by (apply (proj1 wf0), Hw).
      rewrite (proj2 (Nat.eqb_neq _ _) (Hneb w Hwn (fun H => HwM (in_or_app _ _ _ (or_introl H))))).
      assert (Hwv : w <> v) by (intros ->; apply HwM, in_or_app; right; left; reflexivity).
      rewrite (proj2 (Nat.eqb_neq _ _) Hwv). reflexivity.
  - intros w Hw Hwn Hin. cbn [rag nodes fst snd] in Hin, Hwn. apply in_app_or in Hin. destruct Hin as [Hin | [Heq | []]].
    + apply filter_In in Hin. destruct Hin as [Hin Hf].
      apply andb_prop in Hf. destruct Hf as [Hfb Hfv].
      apply negb_true_iff, Nat.eqb_neq in Hfb. apply negb_true_iff, Nat.eqb_neq in Hfv.
      apply in_app_or in Hw. destruct Hw as [Hw | [<- | []]]; [|contradiction].
      exact (Hgone w Hw Hfb Hin).
    + apply Hwn. symmetry. exact Heq.
  - intros w Hw. apply in_app_or in Hw. destruct Hw as [Hw | [<- | []]]; [apply HM, Hw | exact Hv].
Qed.

(** Along a chain, the loop merges exactly the pairs it logs, each
    joining two adjacent nodes, and keeps the graph invariant. *)
Lemma merge_loop_chain_graph (M L : list nat) :
  chain (fun t x => adjb g0 t x = true) M L ->
  forall (st : solver Feature Classifier) (b : nat) (L2 : list nat),
  loop_inv st b M -> graph_inv st b M -> NoDup L ->
  (forall v, In v L -> v < next g0 /\ ~ In v M) ->
  exists st' b' hs,
    merge_loop feature_vector st b (L ++ L2) = merge_loop feature_vector st' b' L2 /\
    loop_inv st' b' (M ++ L) /\ graph_inv st' b' (M ++ L) /\
    history st' = history st ++ hs /\ map snd hs = L /\
    rag st' = replay_merge_history (rag st) hs /\
    adjacent_merges (rag st) hs = true.
Proof.
  intros H. induction H as [M | M v L Hv HL IH]; intros st b L2 HI HG Hnd HL'.
  - exists st, b, []. rewrite !app_nil_r.
    split; [reflexivity|]. split; [exact HI|]. split; [exact HG|]. repeat split.
  - destruct (HL' v (or_introl eq_refl)) as [Hvlt HvM].
    assert (Hadj : adjb (rag st) b v = true) by (apply (adj_blob st b M v HI HvM Hvlt), Hv).
    cbn [merge_loop app]. unfold extract. rewrite Hadj.
    set (st1 := log_merge (log_example st (feature_vector (rag st) b v) MERGE_LABEL) (b, v)).
    assert (Hr : rag st1 = rag st) by reflexivity.
    pose proof (loop_inv_step st st1 b M v HI Hr) as HI1.
    pose proof (graph_inv_step st st1 b M v HI HG Hvlt HvM) as HG1.
    destruct (merge_nodes (rag st) b v) as [g' n] eqn:Em.
    simpl in HI1, HG1.
    apply NoDup_cons_iff in Hnd. destruct Hnd as [HvL HndL].
    assert (HL1 : forall w, In w L -> w < next g0 /\ ~ In w (M ++ [v])).
    { intros w Hw. destruct (HL' w (or_intror Hw)) as [H1 H2]. split; [exact H1|].
      intros Hw'. apply in_app_or in Hw'. destruct Hw' as [Hw' | [<- | []]]; contradiction. }
    destruct (IH (set_rag st1 g') n L2 HI1 HG1 HndL HL1)
      as [st' [b' [hs [Hrun [HI' [HG' [Hh [Hsnd [Hrag Hadjs]]]]]]]]].
    exists st', b', ((b, v) :: hs).
    rewrite <- app_assoc in HI', HG'. simpl in HI', HG', Hh.
    split; [rewrite Hr, Em; exact Hrun|]. split; [exact HI'|]. split; [exact HG'|].
    split; [rewrite Hh, <- app_assoc; reflexivity|].
    split; [simpl; rewrite Hsnd; reflexivity|].
    split.
    + change (rag st' = replay_merge_history (fst (merge_nodes (rag st) b v)) hs).
      rewrite Em. exact Hrag.
    + change (adjb (rag st) b v && adjacent_merges (fst (merge_nodes (rag st) b v)) hs = true).
      rewrite Hadj, Em. exact Hadjs.
Qed.

End MergeLoop.

(** ** The selection of [learn_merge] *)

Lemma py_set_In (l : list nat) (x : nat) : In x (py_set l) <-> In x l.
Proof.
  unfold py_set. rewrite <- (nodup_In Nat.eq_dec l x).
  pose proof (NatSort.Permuted_sort (nodup Nat.eq_dec l)) as Hp. split; intros H.
  - apply (Permutation_in _ (Permutation_sym Hp)), H.
  - apply (Permutation_in _ Hp), H.
Qed.

Lemma py_set_NoDup (l : list nat) : NoDup (py_set l).
Proof.
  unfold py_set. apply (Permutation_NoDup (NatSort.Permuted_sort _)), NoDup_nodup.
Qed.

Lemma filter_all {A : Type} (f : A -> bool) (l : list A) :
  (forall x, In x l -> f x = true) -> filter f l = l.
Proof.
  induction l as [|a l IH]; simpl; intros H; [reflexivity|].
  rewrite (H a (or_introl eq_refl)). f_equal. apply IH. intros x Hx. apply H. right. exact Hx.
Qed.

Lemma chain_impl (R1 R2 : nat -> nat -> Prop) (M L : list nat) :
  (forall a b, R1 a b -> R2 a b) -> chain R1 M L -> chain R2 M L.
Proof.
  intros HR H. induction H as [M | M v L [t [Ht Hv]] HL IH]; constructor; auto.
  exists t. auto.
Qed.

Lemma sel_edge_sym (g : Rag) (S : list nat) (a b : nat) :
  sel_edge g S a b -> sel_edge g S b a.
Proof.
  intros [Ha [Hb Hab]]. split; [exact Hb|]. split; [exact Ha|]. rewrite adjb_sym. exact Hab.
Qed.

Lemma reach_sym (g : Rag) (S : list nat) (a b : nat) :
  clos_refl_trans nat (sel_edge g S) a b -> clos_refl_trans nat (sel_edge g S) b a.
Proof.
  intros H. induction H as [a b H | a | a b c _ IH1 _ IH2].
  - apply rt_step, sel_edge_sym, H.
  - apply rt_refl.
  - apply (rt_trans _ _ _ b); assumption.
Qed.

(** A set closed under the edges of the selection holds everything
    reachable from its members. *)
Lemma reach_closed (g : Rag) (S C : list nat) (a x : nat) :
  (forall y z, In y C -> In z S -> adjb g y z = true -> In z C) ->
  clos_refl_trans nat (sel_edge g S) a x -> In a C -> In x C.
Proof.
  intros Hcl H. induction H as [a x [_ [Hx Hax]] | a | a b c _ IH1 _ IH2]; intros Ha.
  - apply (Hcl a x Ha Hx Hax).
  - exact Ha.
  - apply IH2, IH1, Ha.
Qed.

Lemma chain_reach (g : Rag) (S : list nat) (n0 : nat) (M L : list nat) :
  chain (fun t x => In x (sub_nbrs g S t)) M L ->
  (forall m, In m M -> In m S /\ clos_refl_trans nat (sel_edge g S) n0 m) ->
  forall x, In x L -> In x S /\ clos_refl_trans nat (sel_edge g S) n0 x.
Proof.
  intros H. induction H as [M | M v L [t [Ht Hv]] HL IH]; intros HM x Hx; [destruct Hx|].
  unfold sub_nbrs in Hv. apply filter_In in Hv. destruct Hv as [HvS Htv].
  destruct (HM t Ht) as [HtS Hreach].
  assert (Hv' : In v S /\ clos_refl_trans nat (sel_edge g S) n0 v).
  { split; [exact HvS|]. apply (rt_trans _ _ _ t); [exact Hreach|].
    apply rt_step. split; [exact HtS|]. split; assumption. }
  destruct Hx as [<- | Hx]; [exact Hv'|].
  apply IH; [|exact Hx]. intros m Hm. apply in_app_or in Hm.
  destruct Hm as [Hm | [<- | []]]; [apply HM, Hm | exact Hv'].
Qed.

Lemma adjb_irrefl (g : Rag) (a : nat) : adjb g a a = false.
Proof. unfold adjb. rewrite Nat.eqb_refl. reflexivity. Qed.

Lemma nodup_all_eq (l : list nat) (a : nat) :
  NoDup l -> In a l -> (forall x, In x l -> x = a) -> l = [a].
Proof.
  intros Hnd Ha Hall. destruct l as [|x [|y l]].
  - destruct Ha.
  - rewrite (Hall x (or_introl eq_refl)). reflexivity.
  - exfalso. apply NoDup_cons_iff in Hnd. destruct Hnd as [Hx _]. apply Hx.
    rewrite (Hall x (or_introl eq_refl)), (Hall y (or_intror (or_introl eq_refl))).
    left. reflexivity.
Qed.

Section LearnMerge.

Variable Feature : Type.
Variable feature_vector : Rag -> nat -> nat -> Feature.
Variable Classifier : Type.

Lemma loop_inv_init (st : solver Feature Classifier) (n0 : nat) :
  loop_inv Feature Classifier (rag st) st n0 [n0].
Proof.
  split; [reflexivity|]. split; [|split; [left; left; reflexivity | apply le_n]].
  intros z _. destruct (memb (anc (rag st) z) [n0]) eqn:E; [|reflexivity].
  apply memb_In in E. destruct E as [E | []]. symmetry. exact E.
Qed.

Lemma graph_inv_init (st : solver Feature Classifier) (n0 : nat) :
  In n0 (nodes (rag st)) -> n0 < next (rag st) ->
  graph_inv Feature Classifier (rag st) st n0 [n0].
Proof.
  intros Hn Hlt. split; [|split; [exact Hn | split; [|split]]].
  - intros z _. destruct (memb (anc (rag st) z) [n0]) eqn:E; [|reflexivity].
    apply memb_In in E. destruct E as [E | []]. symmetry. exact E.
  - intros v Hv _. exact Hv.
  - intros v [<- | []] Hne. exfalso. apply Hne. reflexivity.
  - intros v [<- | []]. exact Hlt.
Qed.

(** [learn_merge] walks the search tree of the first member [n0] of the
    resolved set, then the other members; the tree is closed under the
    edges of the selection and each of its nodes is adjacent to an
    earlier one. *)
Lemma learn_merge_shape (st : solver Feature Classifier) (segments : list nat)
  (n0 : nat) (S' : list nat) :
  (forall s, In s segments -> In (anc (rag st) s) (nodes (rag st))) ->
  py_set (map (anc (rag st)) segments) = n0 :: S' ->
  exists T R,
    learn_merge feature_vector st segments = merge_loop feature_vector st n0 (T ++ R) /\
    NoDup ((n0 :: T) ++ R) /\
    (forall x, In x ((n0 :: T) ++ R) <-> In x (n0 :: S')) /\
    chain (fun t x => In x (sub_nbrs (rag st) (n0 :: S') t)) [n0] T /\
    (forall y z, In y (n0 :: T) -> In z (n0 :: S') -> adjb (rag st) y z = true ->
                 In z (n0 :: T)).
Proof.
  intros Hlive HS.
  assert (Hsub : sub_nodes (rag st) (n0 :: S') = n0 :: S').
  { apply filter_all. intros x Hx. apply memb_In. rewrite <- HS, py_set_In in Hx.
    apply in_map_iff in Hx. destruct Hx as [s [<- Hs]]. apply Hlive, Hs. }
  assert (Hnd : NoDup (n0 :: S')) by (rewrite <- HS; apply py_set_NoDup).
  assert (HU : forall v, incl (sub_nbrs (rag st) (n0 :: S') v) (n0 :: S')).
  { intros v x Hx. apply filter_In in Hx. apply Hx. }
  destruct (dfs_preorder_split (sub_nbrs (rag st) (n0 :: S')) (n0 :: S') HU n0 S'
              eq_refl Hnd) as [T [R [Hdfs [HndTR [Hin [Hch Hcl]]]]]].
  exists T, R. unfold learn_merge. rewrite HS, Hsub, Hdfs.
  split; [reflexivity|]. split; [exact HndTR|]. split; [exact Hin|]. split; [exact Hch|].
  intros y z Hy Hz Hyz. apply (Hcl y Hy). apply filter_In. split; assumption.
Qed.

Lemma selection_lt (st : solver Feature Classifier) (segments : list nat) (x : nat) :
  wf_rag (rag st) ->
  (forall s, In s segments -> In (anc (rag st) s) (nodes (rag st))) ->
  In x (py_set (map (anc (rag st)) segments)) -> x < next (rag st).
Proof.
  intros Hwf Hlive Hx. apply py_set_In, in_map_iff in Hx. destruct Hx as [s [<- Hs]].
  apply (proj1 Hwf), Hlive, Hs.
Qed.

(** C3: a merge whose ids resolve to a connected set of [k >= 2] live
    segments appends exactly [k - 1] pairs to the merge history, [k - 1]
    feature vectors and [k - 1] MERGE labels, and raises nothing. *)
Theorem learn_merge_connected_appends (st : solver Feature Classifier) (segments : list nat) :
  wf_rag (rag st) ->
  (forall s, In s segments -> In (anc (rag st) s) (nodes (rag st))) ->
  2 <= length (py_set (map (anc (rag st)) segments)) ->
  connected (rag st) (py_set (map (anc (rag st)) segments)) ->
  let k := length (py_set (map (anc (rag st)) segments)) in
  exists st' hs fs,
    learn_merge feature_vector st segments = (st', None) /\
    history st' = history st ++ hs /\ length hs = k - 1 /\
    features st' = features st ++ fs /\ length fs = k - 1 /\
    targets st' = targets st ++ repeat MERGE_LABEL (k - 1).
Proof.
  intros Hwf Hlive Hk Hconn k.
  assert (Hlt : forall x, In x (py_set (map (anc (rag st)) segments)) -> x < next (rag st))
    by (intros x; apply selection_lt; assumption).
  subst k. revert Hk Hconn Hlt.
  destruct (py_set (map (anc (rag st)) segments)) as [|n0 S'] eqn:HS;
    intros Hk Hconn Hlt; [simpl in Hk; lia|].
  destruct (learn_merge_shape st segments n0 S' Hlive HS)
    as [T [R [Hrun [Hnd [Hin [Hch Hcl]]]]]].
  (* connected: the search tree of [n0] is the whole set *)
  assert (HR : R = []).
  { destruct R as [|r R']; [reflexivity|]. exfalso.
    assert (Hr : In r (n0 :: S')) by (apply Hin, in_or_app; right; left; reflexivity).
    assert (Hr' : In r (n0 :: T)).
    { apply (reach_closed (rag st) (n0 :: S') (n0 :: T) n0 r Hcl).
      - apply Hconn; [left; reflexivity | exact Hr].
      - left. reflexivity. }
    apply (NoDup_remove_2 _ _ _ Hnd), in_or_app. left. exact Hr'. }
  subst R.
  assert (HndT : NoDup T) by (rewrite app_nil_r in Hnd; apply NoDup_cons_iff in Hnd; apply Hnd).
  assert (HT : forall v, In v T -> v < next (rag st) /\ ~ In v [n0]).
  { intros v Hv. split.
    - apply Hlt, Hin, in_or_app. left. right. exact Hv.
    - intros [<- | []]. rewrite app_nil_r in Hnd. apply NoDup_cons_iff in Hnd.
      apply Hnd, Hv. }
  assert (Hch' : chain (fun t x => adjb (rag st) t x = true) [n0] T).
  { apply (chain_impl _ _ _ _ (fun t x H => proj2 (proj1 (filter_In _ _ _) H)) Hch). }
  destruct (merge_loop_chain Feature feature_vector Classifier (rag st) Hwf [n0] T Hch'
              st n0 [] (loop_inv_init st n0) HndT HT)
    as [st' [b' [hs [fs [Hloop [_ [Hh [Hhl [Hf [Hfl [Ht _]]]]]]]]]]].
  assert (HndS : NoDup (n0 :: S')) by (rewrite <- HS; apply py_set_NoDup).
  assert (Hlen : length (n0 :: S') = S (length T)).
  { rewrite <- (Permutation_length (NoDup_Permutation Hnd HndS Hin)).
    rewrite app_nil_r. reflexivity. }
  rewrite Hlen. simpl. rewrite Nat.sub_0_r.
  exists st', hs, fs. rewrite Hrun, Hloop.
  repeat split; assumption.
Qed.

(** C1 (as the code does it): [learn_merge] makes no connectivity check.
    On a resolved set whose induced subgraph is disconnected it merges
    the component [C] of the first member [n0] and then raises the
    [KeyError] of the feature extraction at the first member outside
    [C]; some member of the set lies outside [C].  It appends one
    history pair, one feature vector and one MERGE label for each member
    of [C] but [n0], and these stay in the log.  The graph it leaves is
    the starting graph with exactly the logged pairs merged, in order,
    and each of those merges joined two adjacent nodes.  In that graph
    [C] is one live node [b]: every id whose segment was in [C] now has
    ancestor [b], every other id kept its own, the members of [C] other
    than [b] are no longer nodes, and every other node, the members of
    the set outside [C] included, still is. *)
Theorem learn_merge_disconnected_partial (st : solver Feature Classifier)
  (segments : list nat) :
  wf_rag (rag st) ->
  (forall s, In s segments -> In (anc (rag st) s) (nodes (rag st))) ->
  ~ connected (rag st) (py_set (map (anc (rag st)) segments)) ->
  exists n0 S' C st' hs fs b,
    py_set (map (anc (rag st)) segments) = n0 :: S' /\
    (forall x, In x C <-> In x (n0 :: S') /\
                          clos_refl_trans nat (sel_edge (rag st) (n0 :: S')) n0 x) /\
    NoDup C /\
    (exists r, In r (n0 :: S') /\ ~ In r C) /\
    learn_merge feature_vector st segments = (st', Some KeyError) /\
    history st' = history st ++ hs /\ length hs = length C - 1 /\
    features st' = features st ++ fs /\ length fs = length C - 1 /\
    targets st' = targets st ++ repeat MERGE_LABEL (length C - 1) /\
    C = n0 :: map snd hs /\
    rag st' = replay_merge_history (rag st) hs /\
    adjacent_merges (rag st) hs = true /\
    In b (nodes (rag st')) /\
    (forall z, anc (rag st) z < next (rag st) ->
               anc (rag st') z = if memb (anc (rag st) z) C then b else anc (rag st) z) /\
    (forall v, In v C -> v <> b -> ~ In v (nodes (rag st'))) /\
    (forall v, In v (nodes (rag st)) -> ~ In v C -> In v (nodes (rag st'))).
Proof.
  intros Hwf Hlive Hdis.
  assert (Hlt : forall x, In x (py_set (map (anc (rag st)) segments)) -> x < next (rag st))
    by (intros x; apply selection_lt; assumption).
  assert (Hnode : forall x, In x (py_set (map (anc (rag st)) segments)) ->
                            In x (nodes (rag st))).
  { intros x Hx. apply py_set_In, in_map_iff in Hx. destruct Hx as [s [<- Hs]].
    apply Hlive, Hs. }
  revert Hdis Hlt Hnode.
  destruct (py_set (map (anc (rag st)) segments)) as [|n0 S'] eqn:HS; intros Hdis Hlt Hnode.
  { exfalso. apply Hdis. intros a b []. }
  destruct (learn_merge_shape st segments n0 S' Hlive HS)
    as [T [R [Hrun [Hnd [Hin [Hch Hcl]]]]]].
  assert (Hreach : forall x, In x (n0 :: T) ->
            In x (n0 :: S') /\ clos_refl_trans nat (sel_edge (rag st) (n0 :: S')) n0 x).
  { intros x [<- | Hx].
    - split; [left; reflexivity | apply rt_refl].
    - apply (chain_reach (rag st) (n0 :: S') n0 [n0] T Hch); [|exact Hx].
      intros m [<- | []]. split; [left; reflexivity | apply rt_refl]. }
  destruct R as [|r R'].
  { exfalso. apply Hdis. intros a b Ha Hb.
    rewrite <- Hin, app_nil_r in Ha, Hb.
    apply (rt_trans _ _ _ n0).
    - apply reach_sym, (Hreach a Ha).
    - apply (Hreach b Hb). }
  assert (HrS : In r (n0 :: S')) by (apply Hin, in_or_app; right; left; reflexivity).
  assert (HrT : ~ In r ([n0] ++ T)).
  { intros H. apply (NoDup_remove_2 _ _ _ Hnd), in_or_app. left. exact H. }
  assert (HndC : NoDup (n0 :: T)) by (apply (NoDup_app_remove_r _ _ Hnd)).
  assert (HndT : NoDup T) by (apply NoDup_cons_iff in HndC; apply HndC).
  assert (HT : forall v, In v T -> v < next (rag st) /\ ~ In v [n0]).
  { intros v Hv. split.
    - apply Hlt, Hin, in_or_app. left. right. exact Hv.
    - intros [<- | []]. apply NoDup_cons_iff in HndC. apply HndC, Hv. }
  assert (Hch' : chain (fun t x => adjb (rag st) t x = true) [n0] T).
  { apply (chain_impl _ _ _ _ (fun t x H => proj2 (proj1 (filter_In _ _ _) H)) Hch). }
  assert (HG0 : graph_inv Feature Classifier (rag st) st n0 [n0]).
  { apply graph_inv_init; [apply Hnode | apply Hlt]; left; reflexivity. }
  destruct (merge_loop_chain Feature feature_vector Classifier (rag st) Hwf [n0] T Hch'
              st n0 (r :: R') (loop_inv_init st n0) HndT HT)
    as [st' [b' [hs [fs [Hloop [HI [Hh [Hhl [Hf [Hfl [Ht _]]]]]]]]]]].
  destruct (merge_loop_chain_graph Feature feature_vector Classifier (rag st) Hwf [n0] T Hch'
              st n0 (r :: R') (loop_inv_init st n0) HG0 HndT HT)
    as [st2 [b2 [hs2 [Hloop2 [HI2 [HG2 [Hh2 [Hsnd [Hrag Hadjs]]]]]]]]].
  assert (Hno : forall t, In t ([n0] ++ T) -> adjb (rag st) t r = false).
  { intros t Ht'. destruct (adjb (rag st) t r) eqn:E; [|reflexivity].
    exfalso. apply HrT. apply (Hcl t r Ht' HrS E). }
  assert (Hstuck : merge_loop feature_vector st' b' (r :: R') = (st', Some KeyError))
    by (apply (merge_loop_stuck Feature feature_vector Classifier (rag st) Hwf st' b' ([n0] ++ T)
                 r R' HI HrT (Hlt r HrS) Hno)).
  assert (Hstuck2 : merge_loop feature_vector st2 b2 (r :: R') = (st2, Some KeyError))
    by (apply (merge_loop_stuck Feature feature_vector Classifier (rag st) Hwf st2 b2 ([n0] ++ T)
                 r R' HI2 HrT (Hlt r HrS) Hno)).
  assert (Hst : st2 = st').
  { rewrite <- Hloop2, Hloop in Hstuck2. rewrite Hstuck in Hstuck2.
    injection Hstuck2 as E. symmetry. exact E. }
  subst st2.
  assert (Hhs : hs2 = hs) by (rewrite Hh in Hh2; symmetry; apply (app_inv_head _ _ _ Hh2)).
  subst hs2.
  destruct HG2 as [Hanc [Hb [Hkeep [Hgone _]]]].
  exists n0, S', (n0 :: T), st', hs, fs, b2.
  split; [reflexivity|]. split.
  { intros x. split; [apply Hreach|].
    intros [Hx Hrx]. apply (reach_closed (rag st) (n0 :: S') (n0 :: T) n0 x Hcl Hrx).
    left. reflexivity. }
  split; [exact HndC|]. split; [exists r; split; [exact HrS | exact HrT]|].
  split; [rewrite Hrun, Hloop; exact Hstuck|].
  simpl. rewrite Nat.sub_0_r.
  split; [exact Hh|]. split; [exact Hhl|]. split; [exact Hf|]. split; [exact Hfl|].
  split; [exact Ht|]. split; [rewrite Hsnd; reflexivity|].
  split; [exact Hrag|]. split; [exact Hadjs|]. split; [exact Hb|].
  split; [exact Hanc|]. split; [exact Hgone | exact Hkeep].
Qed.

(** C10: a non-empty merge whose ids all resolve to the same ancestor
    [a] leaves the whole state (graph, merge history, features, targets)
    unchanged; when [a] is a node of the graph it also raises nothing. *)
Theorem learn_merge_same_ancestor_noop (st : solver Feature Classifier)
  (segments : list nat) (a : nat) :
  segments <> [] ->
  (forall s, In s segments -> anc (rag st) s = a) ->
  fst (learn_merge feature_vector st segments) = st /\
  (In a (nodes (rag st)) -> snd (learn_merge feature_vector st segments) = None).
Proof.
  intros Hne Hall.
  assert (HS : py_set (map (anc (rag st)) segments) = [a]).
  { apply nodup_all_eq.
    - apply py_set_NoDup.
    - destruct segments as [|s0 segs]; [contradiction|].
      apply py_set_In. left. apply Hall. left. reflexivity.
    - intros x Hx. apply py_set_In, in_map_iff in Hx. destruct Hx as [s [<- Hs]].
      apply Hall, Hs. }
  unfold learn_merge. rewrite HS. unfold sub_nodes. simpl.
  destruct (memb a (nodes (rag st))) eqn:E.
  - unfold dfs_preorder_nodes, sub_nbrs. simpl. rewrite adjb_irrefl. simpl.
    split; [reflexivity | intros _; reflexivity].
  - split; [reflexivity|]. intros Ha. apply memb_In in Ha. congruence.
Qed.

End LearnMerge.

(** ** The session: separations, relearning, the look-up table, the loop *)

Lemma tag_exclusions_enumerate {Feature : Type} (seps : list (nat * nat)) :
  forall (g : Rag) (i : nat),
  @tag_exclusions Feature g i seps =
  (fold_left (fun g ip => add_exclusion (add_exclusion g (fst (snd ip)) (fst ip))
                                        (snd (snd ip)) (fst ip))
             (combine (seq i (length seps)) seps) g,
   flat_map (fun ip => [CAddExclusion (fst (snd ip)) (fst ip);
                        CAddExclusion (snd (snd ip)) (fst ip)])
            (combine (seq i (length seps)) seps)).
Proof.
  induction seps as [|[s0 s1] rest IH]; intros g i; [reflexivity|].
  simpl. rewrite IH. reflexivity.
Qed.

Lemma log_inv_step {Feature Classifier} (st : solver Feature Classifier) (f : Feature)
  (p : nat * nat) (g : Rag) :
  log_inv st -> log_inv (set_rag (log_merge (log_example st f MERGE_LABEL) p) g).
Proof.
  unfold log_inv, MERGE_LABEL, SEPAR_LABEL. simpl.
  rewrite !count_occ_app, !length_app. simpl. lia.
Qed.

Section Session.

Variable Feature : Type.
Variable feature_vector : Rag -> nat -> nat -> Feature.
Variable Classifier : Type.
Variable fit : list Feature -> list nat -> Classifier.
Variable separate_fragments : Rag -> nat -> nat -> Rag * (nat * nat).
Variable agglomerate : Rag -> Rag.
Variable get_map : Rag -> list nat.

Lemma merge_loop_log_inv (ordered : list nat) :
  forall (st : solver Feature Classifier) (s0 : nat),
  log_inv st -> log_inv (fst (merge_loop feature_vector st s0 ordered)).
Proof.
  induction ordered as [|s1 rest IH]; intros st s0 H; [exact H|].
  simpl. unfold extract. destruct (adjb (rag st) s0 s1); [|exact H].
  apply IH, log_inv_step, H.
Qed.

Lemma learn_merge_log_inv (st : solver Feature Classifier) (segments : list nat) :
  log_inv st -> log_inv (fst (learn_merge feature_vector st segments)).
Proof.
  intros H. unfold learn_merge.
  destruct (dfs_preorder_nodes _ _) as [|s0 rest]; [exact H|].
  apply merge_loop_log_inv, H.
Qed.

Lemma learn_separation_log_inv (st : solver Feature Classifier) (fragments : list nat) :
  log_inv st ->
  log_inv (fst (fst (learn_separation feature_vector separate_fragments st fragments))).
Proof.
  intros H. unfold learn_separation.
  destruct fragments as [|f0 [|f1 [|f2 l]]]; try exact H.
  destruct (_ || _); [exact H|].
  destruct (separate_fragments (rag st) f0 f1) as [g' [s0 s1]].
  unfold extract. destruct (adjb g' s0 s1); [|exact H].
  revert H. unfold log_inv, MERGE_LABEL, SEPAR_LABEL. simpl.
  rewrite !count_occ_app, !length_app. simpl. lia.
Qed.

Lemma relearn_fields (st : solver Feature Classifier) :
  relearn fit st =
  ({| rag := replay_merge_history (tagged_original st) (history st);
      original_rag := original_rag st; history := history st;
      separate := separate st; features := features st; targets := targets st;
      policy := Some (fit (features st) (targets st));
      relearn_threshold := relearn_threshold st;
      relearn_trigger := relearn_trigger st |},
   relearn_spec_calls st).
Proof.
  unfold relearn, relearn_spec_calls, tagged_original.
  rewrite tag_exclusions_enumerate. reflexivity.
Qed.

Lemma send_segmentation_fields (st : solver Feature Classifier) :
  send_segmentation fit agglomerate get_map st =
  (set_rag (fst (relearn fit st)) (agglomerate (rag (fst (relearn fit st)))),
   snd (relearn fit st) ++ [CAgglomerate; CGetMap],
   {| lut_fragments := seq 0 (length (get_map (agglomerate (rag (fst (relearn fit st))))));
      lut_segments := get_map (agglomerate (rag (fst (relearn fit st)))) |}).
Proof.
  unfold send_segmentation. destruct (relearn fit st) as [st1 cs]. reflexivity.
Qed.

(** C4: [send_segmentation] relearns first, and [relearn] calls, in this
    order: the classifier fit on all the features and targets, the policy
    wrapper, the copy of the original graph, the installation of the
    priority function, the rebuild of the merge queue, the exclusion tags
    [i] on both fragments of every recorded separation [i], and the replay
    of the whole merge history.  The resulting graph is the tagged
    original with the history replayed in order, the policy comes from
    the classifier fit on all the examples, and the look-up table is read
    from the agglomeration of that graph. *)
Theorem relearn_order (st : solver Feature Classifier) :
  snd (relearn fit st) = relearn_spec_calls st /\
  rag (fst (relearn fit st)) = replay_merge_history (tagged_original st) (history st) /\
  policy (fst (relearn fit st)) = Some (fit (features st) (targets st)) /\
  history (fst (relearn fit st)) = history st /\
  separate (fst (relearn fit st)) = separate st /\
  features (fst (relearn fit st)) = features st /\
  targets (fst (relearn fit st)) = targets st /\
  snd (fst (send_segmentation fit agglomerate get_map st))
    = relearn_spec_calls st ++ [CAgglomerate; CGetMap] /\
  rag (fst (fst (send_segmentation fit agglomerate get_map st)))
    = agglomerate (rag (fst (relearn fit st))) /\
  lut_segments (snd (send_segmentation fit agglomerate get_map st))
    = get_map (agglomerate (rag (fst (relearn fit st)))).
Proof.
  rewrite send_segmentation_fields, relearn_fields. simpl.
  repeat split; reflexivity.
Qed.

(** C2 (as the code does it): the [fragments] of the look-up table are
    [0, 1, ..., len(segments) - 1], the indices of the segment map,
    whatever the fragment ids of the graph are.  So they list a set of
    ids [F] once each exactly when [F] is [{0, ..., len(segments) - 1}]. *)
Theorem send_segmentation_fragments (st : solver Feature Classifier) :
  let l := snd (send_segmentation fit agglomerate get_map st) in
  lut_fragments l = seq 0 (length (lut_segments l)) /\
  (forall F : list nat, NoDup F ->
     (Permutation (lut_fragments l) F <-> (forall x, In x F <-> x < length (lut_segments l)))).
Proof.
  rewrite send_segmentation_fields. simpl. split; [reflexivity|].
  intros F HF. set (n := length _). split.
  - intros Hp x. split.
    + intros Hx. apply (Permutation_in _ (Permutation_sym Hp)), in_seq in Hx. lia.
    + intros Hx. apply (Permutation_in _ Hp), in_seq. lia.
  - intros HFx. apply NoDup_Permutation; [apply seq_NoDup | exact HF|].
    intros x. rewrite in_seq, HFx. lia.
Qed.

(** C5: on a separation whose feature extraction fails (the two nodes
    [separate_fragments] returns are not an edge of the graph it leaves)
    [learn_separation] prints a diagnostic, raises nothing, and leaves
    the features, the targets, the separation history and the merge
    history as they were; the graph is the one [separate_fragments]
    left.  [listen] then goes on with the next message. *)
Theorem learn_separation_extraction_failure (st : solver Feature Classifier)
  (f0 f1 s0 s1 : nat) (g' : Rag) (rest : list message) :
  boundary_body (rag st) <> f0 -> boundary_body (rag st) <> f1 ->
  separate_fragments (rag st) f0 f1 = (g', (s0, s1)) ->
  adjb g' s0 s1 = false ->
  learn_separation feature_vector separate_fragments st [f0; f1]
    = (set_rag st g', None, [FailedToSplit s0 s1 f0 f1]) /\
  features (set_rag st g') = features st /\
  targets (set_rag st g') = targets st /\
  separate (set_rag st g') = separate st /\
  history (set_rag st g') = history st /\
  rag (set_rag st g') = g' /\
  listen feature_vector fit separate_fragments agglomerate get_map st
    (mkMessage "separate" (Segments [f0; f1]) :: rest)
  = prepend [FailedToSplit s0 s1 f0 f1] []
      (listen feature_vector fit separate_fragments agglomerate get_map (set_rag st g') rest).
Proof.
  intros H0 H1 Hsep Hadj.
  assert (Hl : learn_separation feature_vector separate_fragments st [f0; f1]
               = (set_rag st g', None, [FailedToSplit s0 s1 f0 f1])).
  { unfold learn_separation.
    replace (Nat.eqb (boundary_body (rag st)) f0) with false
      by (symmetry; apply Nat.eqb_neq; exact H0).
    replace (Nat.eqb (boundary_body (rag st)) f1) with false
      by (symmetry; apply Nat.eqb_neq; exact H1).
    simpl. rewrite Hsep. unfold extract. rewrite Hadj. reflexivity. }
  split; [exact Hl|].
  repeat split; try reflexivity.
  cbn -[learn_separation prepend]. rewrite Hl. reflexivity.
Qed.

(** C7: a separation naming the boundary id is a no-op: the state, the
    graph and all the logs included, is returned unchanged, nothing is
    raised and nothing printed. *)
Theorem learn_separation_boundary_noop (st : solver Feature Classifier) (f0 f1 : nat) :
  boundary_body (rag st) = f0 \/ boundary_body (rag st) = f1 ->
  learn_separation feature_vector separate_fragments st [f0; f1] = (st, None, []).
Proof.
  intros H. unfold learn_separation.
  replace (Nat.eqb (boundary_body (rag st)) f0 || Nat.eqb (boundary_body (rag st)) f1)
    with true; [reflexivity|].
  symmetry. apply orb_true_iff. destruct H as [H | H]; [left | right];
    apply Nat.eqb_eq; exact H.
Qed.

(** C6: [learn_merge] (whether it returns or raises), [learn_separation]
    (on every path), [relearn] and [send_segmentation] keep the log
    invariant: as many feature vectors as targets, one MERGE label per
    merge history pair and one SEPAR label per recorded separation. *)
Theorem log_inv_preserved (st : solver Feature Classifier)
  (segments fragments : list nat) :
  log_inv st ->
  log_inv (fst (learn_merge feature_vector st segments)) /\
  log_inv (fst (fst (learn_separation feature_vector separate_fragments st fragments))) /\
  log_inv (fst (relearn fit st)) /\
  log_inv (fst (fst (send_segmentation fit agglomerate get_map st))).
Proof.
  intros H. split; [apply learn_merge_log_inv, H|].
  split; [apply learn_separation_log_inv, H|].
  rewrite send_segmentation_fields, relearn_fields. split; exact H.
Qed.

(** C8 (as the code does it): the transitions of [listen] on the next
    message [m].  A [stop], or a type other than merge, separate,
    request and stop, ends the loop whatever follows.  A merge, separate
    or request whose handler returns goes on with the next message; a
    handler that raises (a [KeyError] of the feature extraction, the
    [StopIteration] of an empty selection, a [ValueError] on a
    separation that is not a pair, a missing data field) ends the loop
    as well, with whatever follows never read. *)
Theorem listen_transitions (st : solver Feature Classifier) (m : message)
  (rest : list message) :
  let L := listen feature_vector fit separate_fragments agglomerate get_map in
  (mtype m = "stop"%string -> L st (m :: rest) = (st, [], [], Stopped)) /\
  (mtype m <> "merge"%string -> mtype m <> "separate"%string -> mtype m <> "request"%string ->
   mtype m <> "stop"%string -> L st (m :: rest) = (st, [NotRecognized (mtype m)], [], Stopped)) /\
  (forall segs, mdata m = Segments segs -> mtype m = "merge"%string ->
     (forall st', learn_merge feature_vector st segs = (st', None) ->
        L st (m :: rest) = L st' rest) /\
     (forall st' e, learn_merge feature_vector st segs = (st', Some e) ->
        L st (m :: rest) = (st', [], [], Raised e))) /\
  (forall segs, mdata m = Segments segs -> mtype m = "separate"%string ->
     (forall st' c, learn_separation feature_vector separate_fragments st segs
                      = (st', None, c) ->
        L st (m :: rest) = prepend c [] (L st' rest)) /\
     (forall st' c e, learn_separation feature_vector separate_fragments st segs
                        = (st', Some e, c) ->
        L st (m :: rest) = (st', c, [], Raised e))) /\
  (mdata m = What "fragment-segment-lut"%string -> mtype m = "request"%string ->
     forall st' cs l, send_segmentation fit agglomerate get_map st = (st', cs, l) ->
       L st (m :: rest) = prepend [] [l] (L st' rest)) /\
  (forall w, mdata m = What w -> mtype m = "request"%string -> w <> "fragment-segment-lut"%string ->
     L st (m :: rest) = L st rest) /\
  ((mtype m = "merge"%string \/ mtype m = "separate"%string) ->
     (forall segs, mdata m <> Segments segs) -> L st (m :: rest) = (st, [], [], Raised KeyError)) /\
  (mtype m = "request"%string -> (forall w, mdata m <> What w) ->
     L st (m :: rest) = (st, [], [], Raised KeyError)).
Proof.
  intros L. subst L. destruct m as [t d].
  cbn -[learn_merge learn_separation send_segmentation prepend String.eqb].
  split; [intros ->; reflexivity|].
  split.
  { intros H1 H2 H3 H4.
    apply String.eqb_neq in H1, H2, H3, H4. rewrite H1, H2, H3, H4. reflexivity. }
  split.
  { intros segs -> ->. simpl. split.
    - intros st' H. rewrite H. reflexivity.
    - intros st' e H. rewrite H. reflexivity. }
  split.
  { intros segs -> ->. simpl. split.
    - intros st' c H. rewrite H. reflexivity.
    - intros st' c e H. rewrite H. reflexivity. }
  split.
  { intros -> -> st' cs l H. simpl. rewrite H. reflexivity. }
  split.
  { intros w -> -> Hw. simpl. apply String.eqb_neq in Hw. rewrite Hw. reflexivity. }
  split.
  { intros [-> | ->] Hd; simpl; destruct d as [segs | w |];
      try reflexivity; exfalso; apply (Hd segs); reflexivity. }
  intros -> Hd. simpl. destruct d as [segs | w |]; try reflexivity.
  exfalso. apply (Hd w). reflexivity.
Qed.

End Session.

(** ** The simulator *)

Lemma swap_length (x : list nat) (i j : nat) : length (swap x i j) = length x.
Proof.
  unfold swap. rewrite length_map, length_combine, length_seq. apply Nat.min_id.
Qed.

Lemma shuffle_from_length (rand : nat -> nat) (i : nat) :
  forall x, length (shuffle_from rand i x) = length x.
Proof.
  induction i as [|i IH]; intros x; [reflexivity|].
  simpl. rewrite IH. apply swap_length.
Qed.

Lemma count_type_app (t : string) (l1 l2 : list message) :
  count_type t (l1 ++ l2) = count_type t l1 + count_type t l2.
Proof.
  unfold count_type. rewrite filter_app. apply length_app.
Qed.

Lemma count_type_none (t : string) (l : list message) :
  (forall m, In m l -> String.eqb (mtype m) t = false) -> count_type t l = 0.
Proof.
  induction l as [|m l IH]; intros H; [reflexivity|].
  unfold count_type. simpl. rewrite (H m (or_introl eq_refl)).
  apply IH. intros m' Hm'. apply H. right. exact Hm'.
Qed.

Lemma boundary_separations_type (nbrs : nat -> list nat) (components : list nat)
  (m : message) :
  In m (boundary_separations nbrs components) -> mtype m = "separate"%string.
Proof.
  unfold boundary_separations. rewrite in_flat_map. intros [f [_ Hm]].
  rewrite in_flat_map in Hm. destruct Hm as [n [_ Hm]].
  destruct (memb n components); [destruct Hm|].
  destruct Hm as [<- | []]. reflexivity.
Qed.

Lemma count_merge_rounds {A : Type} (f : A -> list nat) (nbrs : nat -> list nat)
  (l : list A) :
  count_type "merge" (flat_map (fun p => mkMessage "merge" (Segments (f p))
                                          :: boundary_separations nbrs (f p)) l)
  = length l.
Proof.
  induction l as [|p l IH]; [reflexivity|].
  cbn [flat_map]. rewrite count_type_app, IH.
  change (count_type "merge" (mkMessage "merge" (Segments (f p))
                                :: boundary_separations nbrs (f p)))
    with (S (count_type "merge" (boundary_separations nbrs (f p)))).
  rewrite count_type_none; [reflexivity|].
  intros m Hm. rewrite (boundary_separations_type _ _ _ Hm). reflexivity.
Qed.

Section Proofread.

Variable best_segmentation : list nat -> list nat -> list nat.
Variable fast_rag_nbrs : list nat -> nat -> list nat.
Variable rand : nat -> nat.

(** C9: [proofread] sends one merge message per label it takes from
    [zip(range(num_operations), true_labels)]: [min num_operations
    (number of distinct true labels)] of them, and the loop cannot fail
    when [num_operations] is the larger. *)
Theorem proofread_merge_count (fragments true_segmentation : list nat)
  (num_operations : nat) (stop_when_finished : bool) :
  count_type "merge"
    (proofread_sent best_segmentation fast_rag_nbrs rand fragments true_segmentation
       num_operations stop_when_finished)
  = Nat.min num_operations
      (length (np_unique (best_segmentation fragments true_segmentation))).
Proof.
  unfold proofread_sent. cbv zeta. rewrite !count_type_app.
  rewrite (count_merge_rounds
             (fun p => column_indices fragments (best_segmentation fragments true_segmentation)
                                      (snd p))).
  rewrite length_combine, length_seq. unfold shuffle. rewrite shuffle_from_length.
  destruct stop_when_finished;
    repeat rewrite (count_type_none "merge" [_]) by (intros m [<- | []]; reflexivity);
    try rewrite (count_type_none "merge" []) by (intros m []); lia.
Qed.

End Proofread.

(** ** The session loop, further *)

Lemma prepend_nil {Feature Classifier}
  (r : solver Feature Classifier * list console * list lut * outcome) :
  prepend [] [] r = r.
Proof. destruct r as [[[st c] l] o]. reflexivity. Qed.

Lemma prepend_prepend {Feature Classifier} (c1 c2 : list console) (l1 l2 : list lut)
  (r : solver Feature Classifier * list console * list lut * outcome) :
  prepend c1 l1 (prepend c2 l2 r) = prepend (c1 ++ c2) (l1 ++ l2) r.
Proof. destruct r as [[[st c] l] o]. simpl. rewrite !app_assoc. reflexivity. Qed.

Lemma listen_state_prepend {Feature Classifier} (c : list console) (l : list lut)
  (r : solver Feature Classifier * list console * list lut * outcome) :
  listen_state (prepend c l r) = listen_state r.
Proof. destruct r as [[[st c'] l'] o]. reflexivity. Qed.

(** The logs of [b] extend those of [a]; the original graph and the
    relearn settings are [a]'s. *)
Definition grows {Feature Classifier} (a b : solver Feature Classifier) : Prop :=
  original_rag b = original_rag a /\
  relearn_threshold b = relearn_threshold a /\
  relearn_trigger b = relearn_trigger a /\
  (exists h, history b = history a ++ h) /\
  (exists s, separate b = separate a ++ s) /\
  (exists f, features b = features a ++ f) /\
  (exists t, targets b = targets a ++ t).

Lemma grows_refl {Feature Classifier} (a : solver Feature Classifier) : grows a a.
Proof.
  split; [reflexivity|]. split; [reflexivity|]. split; [reflexivity|].
  split; [exists []|split; [exists []|split; [exists []|exists []]]]; symmetry; apply app_nil_r.
Qed.

Lemma grows_trans {Feature Classifier} (a b c : solver Feature Classifier) :
  grows a b -> grows b c -> grows a c.
Proof.
  intros [H1 [H2 [H3 [[h Hh] [[s Hs] [[f Hf] [t Ht]]]]]]]
         [K1 [K2 [K3 [[h' Kh] [[s' Ks] [[f' Kf] [t' Kt]]]]]]].
  split; [congruence|]. split; [congruence|]. split; [congruence|].
  split; [exists (h ++ h'); rewrite Kh, Hh, app_assoc; reflexivity|].
  split; [exists (s ++ s'); rewrite Ks, Hs, app_assoc; reflexivity|].
  split; [exists (f ++ f'); rewrite Kf, Hf, app_assoc; reflexivity|].
  exists (t ++ t'); rewrite Kt, Ht, app_assoc; reflexivity.
Qed.

Lemma grows_merge_step {Feature Classifier} (st : solver Feature Classifier) (f : Feature)
  (p : nat * nat) (g : Rag) :
  grows st (set_rag (log_merge (log_example st f MERGE_LABEL) p) g).
Proof.
  split; [reflexivity|]. split; [reflexivity|]. split; [reflexivity|].
  split; [exists [p]; reflexivity|]. split; [exists []; symmetry; apply app_nil_r|].
  split; [exists [f]; reflexivity | exists [MERGE_LABEL]; reflexivity].
Qed.

Lemma nth_error_enumerate {A : Type} (x : list A) :
  forall k n, nth_error (combine (seq k (length x)) x) n
              = option_map (fun y => (k + n, y)) (nth_error x n).
Proof.
  induction x as [|a x IH]; intros k n; [destruct n; reflexivity|].
  destruct n as [|n]; simpl.
  - rewrite Nat.add_0_r. reflexivity.
  - rewrite IH. destruct (nth_error x n); simpl; [rewrite Nat.add_succ_r|]; reflexivity.
Qed.

(** [x[i], x[j] = x[j], x[i]] on indices in range permutes [x]. *)
Lemma swap_Permutation (x : list nat) (i j : nat) :
  i < length x -> j < length x -> Permutation x (swap x i j).
Proof.
  intros Hi Hj. apply Permutation_nth_error. split; [symmetry; apply swap_length|].
  exists (fun n => if Nat.eqb n i then j else if Nat.eqb n j then i else n). split.
  - intros a b. destruct (Nat.eqb_spec a i), (Nat.eqb_spec a j), (Nat.eqb_spec b i),
      (Nat.eqb_spec b j); lia.
  - intros n. unfold swap. rewrite nth_error_map, nth_error_enumerate. simpl.
    destruct (Nat.eqb_spec n i) as [-> | Hni].
    + rewrite (nth_error_nth' x 0 Hi), (nth_error_nth' x 0 Hj). simpl.
      rewrite Nat.eqb_refl. reflexivity.
    + destruct (Nat.eqb_spec n j) as [-> | Hnj].
      * rewrite (nth_error_nth' x 0 Hj), (nth_error_nth' x 0 Hi). simpl.
        rewrite (proj2 (Nat.eqb_neq j i) Hni), Nat.eqb_refl. reflexivity.
      * destruct (nth_error x n); simpl; [|reflexivity].
        rewrite (proj2 (Nat.eqb_neq n i) Hni), (proj2 (Nat.eqb_neq n j) Hnj). reflexivity.
Qed.

Lemma shuffle_from_Permutation (rand : nat -> nat) (i : nat) :
  forall x, i = 0 \/ i < length x -> Permutation x (shuffle_from rand i x).
Proof.
  induction i as [|i IH]; intros x Hi; [apply Permutation_refl|].
  destruct Hi as [Hi | Hi]; [discriminate|]. simpl.
  assert (Hj : rand (S i) mod S (S i) < length x).
  { pose proof (Nat.mod_upper_bound (rand (S i)) (S (S i)) ltac:(lia)). lia. }
  eapply perm_trans; [apply (swap_Permutation x (S i) _ Hi Hj)|].
  apply IH. right. rewrite swap_length. lia.
Qed.

Lemma shuffle_Permutation (rand : nat -> nat) (x : list nat) :
  Permutation x (shuffle rand x).
Proof.
  unfold shuffle. apply shuffle_from_Permutation.
  destruct (length x); [left; reflexivity | right; lia].
Qed.

Lemma map_snd_enumerate {A : Type} (n : nat) :
  forall (k : nat) (l : list A), map snd (combine (seq k n) l) = firstn n l.
Proof.
  induction n as [|n IH]; intros k l; [reflexivity|].
  destruct l as [|a l]; [reflexivity|]. simpl. rewrite IH. reflexivity.
Qed.

Lemma NoDup_firstn' (n : nat) (l : list nat) : NoDup l -> NoDup (firstn n l).
Proof.
  intros H. rewrite <- (firstn_skipn n l) in H. apply (NoDup_app_remove_r _ _ H).
Qed.

Lemma add_exclusion_In (g : Rag) (s i v j : nat) :
  In j (exclusions (add_exclusion g s i) v) <-> In j (exclusions g v) \/ (v = s /\ j = i).
Proof.
  simpl. destruct (Nat.eqb_spec v s) as [-> | Hv].
  - destruct (memb i (exclusions g s)) eqn:M.
    + apply memb_In in M. split; [tauto|]. intros [H | [_ ->]]; assumption.
    + rewrite in_app_iff. simpl. split.
      * intros [H | [-> | []]]; [left; exact H | right; split; reflexivity].
      * intros [H | [_ ->]]; [left; exact H | right; left; reflexivity].
  - split; [tauto|]. intros [H | [H _]]; [exact H | contradiction].
Qed.

Lemma tag_fold_In (seps : list (nat * nat)) :
  forall (g : Rag) (k v j : nat),
  In j (exclusions (fold_left (fun g ip => add_exclusion (add_exclusion g (fst (snd ip)) (fst ip))
                                                         (snd (snd ip)) (fst ip))
                              (combine (seq k (length seps)) seps) g) v)
  <-> In j (exclusions g v) \/
      exists n f0 f1, j = k + n /\ nth_error seps n = Some (f0, f1) /\ (v = f0 \/ v = f1).
Proof.
  induction seps as [|[a0 a1] rest IH]; intros g k v j.
  - simpl. split; [tauto|]. intros [H | [n [f0 [f1 [_ [Hn _]]]]]]; [exact H|].
    destruct n; discriminate.
  - simpl. rewrite IH, !add_exclusion_In. split.
    + intros [[[H | [-> ->]] | [-> ->]] | [n [f0 [f1 [-> [Hn Hv]]]]]].
      * left. exact H.
      * right. exists 0, a0, a1. split; [lia | split; [reflexivity | left; reflexivity]].
      * right. exists 0, a0, a1. split; [lia | split; [reflexivity | right; reflexivity]].
      * right. exists (S n), f0, f1. split; [lia | split; [exact Hn | exact Hv]].
    + intros [H | [n [f0 [f1 [-> [Hn Hv]]]]]].
      * left. left. left. exact H.
      * destruct n as [|n].
        -- simpl in Hn. injection Hn as <- <-. rewrite Nat.add_0_r.
           destruct Hv as [-> | ->]; [left; left; right | left; right]; split; reflexivity.
        -- right. exists n, f0, f1. split; [lia | split; [exact Hn | exact Hv]].
Qed.

Lemma filter_none {A : Type} (f : A -> bool) (l : list A) :
  (forall x, In x l -> f x = false) -> filter f l = [].
Proof.
  induction l as [|a l IH]; simpl; intros H; [reflexivity|].
  rewrite (H a (or_introl eq_refl)). apply IH. intros x Hx. apply H. right. exact Hx.
Qed.

Ltac run_listen := cbn -[learn_merge learn_separation send_segmentation prepend].

Section SessionLoop.

Variable Feature : Type.
Variable feature_vector : Rag -> nat -> nat -> Feature.
Variable Classifier : Type.
Variable fit : list Feature -> list nat -> Classifier.
Variable separate_fragments : Rag -> nat -> nat -> Rag * (nat * nat).
Variable agglomerate : Rag -> Rag.
Variable get_map : Rag -> list nat.

Let L := listen feature_vector fit separate_fragments agglomerate get_map.

(** The state after the handler of [m] has run, whether it returned or
    raised. *)
Definition handle_state (st : solver Feature Classifier) (m : message)
  : solver Feature Classifier :=
  if String.eqb (mtype m) "merge" then
    match mdata m with
    | Segments segs => fst (learn_merge feature_vector st segs)
    | _ => st
    end
  else if String.eqb (mtype m) "separate" then
    match mdata m with
    | Segments segs => fst (fst (learn_separation feature_vector separate_fragments st segs))
    | _ => st
    end
  else if String.eqb (mtype m) "request" then
    match mdata m with
    | What w => if String.eqb w "fragment-segment-lut"
                then fst (fst (send_segmentation fit agglomerate get_map st)) else st
    | _ => st
    end
  else st.

(** One message: either [listen] goes on from the handler's state, with
    the console lines and tables of that message first, or it ends there,
    whatever follows. *)
Lemma listen_step (st : solver Feature Classifier) (m : message) :
  (exists c ls, length ls = (if is_lut_request m then 1 else 0) /\
     handled_type m = true /\
     forall rest, L st (m :: rest) = prepend c ls (L (handle_state st m) rest)) \/
  (exists r, listen_outcome r <> Waiting /\ listen_state r = handle_state st m /\
     forall rest, L st (m :: rest) = r).
Proof.
  unfold L. destruct m as [t d].
  unfold handle_state, is_lut_request, handled_type. cbn [mtype mdata].
  destruct (String.eqb t "merge") eqn:E1.
  { apply String.eqb_eq in E1. subst t. destruct d as [segs | w |].
    - destruct (learn_merge feature_vector st segs) as [st' [e|]] eqn:Hm.
      + right. exists (st', [], [], Raised e). split; [discriminate|].
        split; [reflexivity|].
        intros rest. run_listen. rewrite Hm. reflexivity.
      + left. exists [], []. split; [reflexivity|]. split; [reflexivity|].
        intros rest. run_listen. rewrite Hm, prepend_nil. reflexivity.
    - right. exists (st, [], [], Raised KeyError).
      split; [discriminate | split; reflexivity].
    - right. exists (st, [], [], Raised KeyError).
      split; [discriminate | split; reflexivity]. }
  destruct (String.eqb t "separate") eqn:E2.
  { apply String.eqb_eq in E2. subst t. destruct d as [segs | w |].
    - destruct (learn_separation feature_vector separate_fragments st segs)
        as [[st' [e|]] c] eqn:Hs.
      + right. exists (st', c, [], Raised e). split; [discriminate|].
        split; [reflexivity|].
        intros rest. run_listen. rewrite Hs. reflexivity.
      + left. exists c, []. split; [reflexivity|]. split; [reflexivity|].
        intros rest. run_listen. rewrite Hs. simpl. reflexivity.
    - right. exists (st, [], [], Raised KeyError).
      split; [discriminate | split; reflexivity].
    - right. exists (st, [], [], Raised KeyError).
      split; [discriminate | split; reflexivity]. }
  destruct (String.eqb t "request") eqn:E3.
  { apply String.eqb_eq in E3. subst t. destruct d as [segs | w |].
    - right. exists (st, [], [], Raised KeyError).
      split; [discriminate | split; reflexivity].
    - destruct (String.eqb w "fragment-segment-lut") eqn:Ew.
      + destruct (send_segmentation fit agglomerate get_map st) as [[st' cs] l] eqn:Hss.
        left. exists [], [l]. split; [reflexivity|].
        split; [reflexivity|].
        intros rest. run_listen. rewrite Ew, Hss. reflexivity.
      + left. exists [], []. split; [reflexivity|].
        split; [reflexivity|].
        intros rest. run_listen. rewrite Ew, prepend_nil. reflexivity.
    - right. exists (st, [], [], Raised KeyError).
      split; [discriminate | split; reflexivity]. }
  destruct (String.eqb t "stop") eqn:E4.
  - right. exists (st, [], [], Stopped). split; [discriminate | split; [reflexivity|]].
    intros rest. run_listen. rewrite E1, E2, E3, E4. reflexivity.
  - right. exists (st, [NotRecognized t], [], Stopped).
    split; [discriminate | split; [reflexivity|]].
    intros rest. run_listen. rewrite E1, E2, E3, E4. reflexivity.
Qed.

Lemma listen_state_reach (R : solver Feature Classifier -> solver Feature Classifier -> Prop) :
  (forall a, R a a) -> (forall a b c, R a b -> R b c -> R a c) ->
  (forall a m, R a (handle_state a m)) ->
  forall msgs st, R st (listen_state (L st msgs)).
Proof.
  intros Hrefl Htrans Hstep. induction msgs as [|m rest IH]; intros st; [apply Hrefl|].
  destruct (listen_step st m) as [[c [ls [_ [_ H]]]] | [r [_ [Hs H]]]]; rewrite H.
  - rewrite listen_state_prepend. apply (Htrans _ (handle_state st m)); [apply Hstep | apply IH].
  - rewrite Hs. apply Hstep.
Qed.

Lemma merge_loop_grows (ordered : list nat) :
  forall (st : solver Feature Classifier) (s0 : nat),
  grows st (fst (merge_loop feature_vector st s0 ordered)).
Proof.
  induction ordered as [|s1 rest IH]; intros st s0; [apply grows_refl|].
  simpl. unfold extract. destruct (adjb (rag st) s0 s1); [|apply grows_refl].
  eapply grows_trans; [apply grows_merge_step | apply IH].
Qed.

Lemma handle_state_grows (st : solver Feature Classifier) (m : message) :
  grows st (handle_state st m).
Proof.
  unfold handle_state.
  destruct (String.eqb (mtype m) "merge"); [destruct (mdata m) as [segs | w |]|].
  1: { unfold learn_merge. destruct (dfs_preorder_nodes _ _); [apply grows_refl|].
       apply merge_loop_grows. }
  1, 2: apply grows_refl.
  destruct (String.eqb (mtype m) "separate"); [destruct (mdata m) as [segs | w |]|].
  1: { unfold learn_separation. destruct segs as [|f0 [|f1 [|f2 l]]]; try apply grows_refl.
       destruct (_ || _); [apply grows_refl|].
       destruct (separate_fragments (rag st) f0 f1) as [g' [s0 s1]].
       unfold extract. destruct (adjb g' s0 s1).
       - split; [reflexivity|]. split; [reflexivity|]. split; [reflexivity|].
         split; [exists []; symmetry; apply app_nil_r|].
         split; [exists [(f0, f1)]; reflexivity|].
         split; [eexists; reflexivity | exists [SEPAR_LABEL]; reflexivity].
       - split; [reflexivity|]. split; [reflexivity|]. split; [reflexivity|].
         split; [exists []; symmetry; apply app_nil_r|].
         split; [exists []; symmetry; apply app_nil_r|].
         split; exists []; symmetry; apply app_nil_r. }
  1, 2: apply grows_refl.
  destruct (String.eqb (mtype m) "request"); [destruct (mdata m) as [segs | w |]|].
  2: { destruct (String.eqb w "fragment-segment-lut"); [|apply grows_refl].
       rewrite send_segmentation_fields, relearn_fields.
       split; [reflexivity|]. split; [reflexivity|]. split; [reflexivity|].
       split; [exists []; symmetry; apply app_nil_r|].
       split; [exists []; symmetry; apply app_nil_r|].
       split; exists []; symmetry; apply app_nil_r. }
  all: apply grows_refl.
Qed.

Lemma handle_state_log_inv (st : solver Feature Classifier) (m : message) :
  log_inv st -> log_inv (handle_state st m).
Proof.
  intros H. unfold handle_state.
  destruct (String.eqb (mtype m) "merge"); [destruct (mdata m) as [segs | w |]|];
    [apply learn_merge_log_inv, H | exact H | exact H |].
  destruct (String.eqb (mtype m) "separate"); [destruct (mdata m) as [segs | w |]|];
    [apply learn_separation_log_inv, H | exact H | exact H |].
  destruct (String.eqb (mtype m) "request"); [destruct (mdata m) as [segs | w |]|];
    try exact H.
  destruct (String.eqb w "fragment-segment-lut"); [|exact H].
  rewrite send_segmentation_fields, relearn_fields. exact H.
Qed.

(** [listen] from a fresh Solver, on any messages, ends (returning,
    raising or waiting) in a state whose log is consistent: as many
    feature vectors as targets, one MERGE label per merge history pair
    and one SEPAR label per recorded separation. *)
Theorem session_log_inv (g : Rag) (relearn_threshold : nat) (msgs : list message) :
  log_inv (listen_state (L (init_solver g relearn_threshold) msgs)).
Proof.
  apply (listen_state_reach (fun a b => log_inv a -> log_inv b)).
  - intros a H. exact H.
  - intros a b c Hab Hbc H. apply Hbc, Hab, H.
  - intros a m. apply handle_state_log_inv.
  - split; [reflexivity | split; reflexivity].
Qed.

(** No message changes the original graph, the relearn threshold or
    the relearn trigger: [listen] ends with those of the state it
    started from (for a fresh Solver: its graph, and the threshold for
    both). *)
Theorem listen_frame (st : solver Feature Classifier) (msgs : list message) :
  original_rag (listen_state (L st msgs)) = original_rag st /\
  relearn_threshold (listen_state (L st msgs)) = relearn_threshold st /\
  relearn_trigger (listen_state (L st msgs)) = relearn_trigger st.
Proof.
  destruct (listen_state_reach grows grows_refl grows_trans handle_state_grows msgs st)
    as [H1 [H2 [H3 _]]].
  split; [exact H1 | split; [exact H2 | exact H3]].
Qed.

(** The logs are append-only: whatever the messages, [listen] ends
    with a merge history, separation history, feature list and target
    list that extend those it started with. *)
Theorem listen_logs_append_only (st : solver Feature Classifier) (msgs : list message) :
  exists h s f t,
    history (listen_state (L st msgs)) = history st ++ h /\
    separate (listen_state (L st msgs)) = separate st ++ s /\
    features (listen_state (L st msgs)) = features st ++ f /\
    targets (listen_state (L st msgs)) = targets st ++ t.
Proof.
  destruct (listen_state_reach grows grows_refl grows_trans handle_state_grows msgs st)
    as [_ [_ [_ [[h Hh] [[s Hs] [[f Hf] [t Ht]]]]]]].
  exists h, s, f, t. repeat split; assumption.
Qed.

(** When [listen] has read every message and waits for more, every
    message had a handler (merge, separate or request) and it sent one
    look-up table per [request] for [fragment-segment-lut]. *)
Theorem listen_waiting_luts (st st' : solver Feature Classifier) (msgs : list message)
  (c : list console) (ls : list lut) :
  L st msgs = (st', c, ls, Waiting) ->
  length ls = length (filter is_lut_request msgs) /\
  (forall m, In m msgs -> handled_type m = true).
Proof.
  revert st st' c ls. induction msgs as [|m rest IH]; intros st st' c ls Hl.
  - simpl in Hl. injection Hl as _ _ <-. split; [reflexivity | intros m []].
  - destruct (listen_step st m) as [[c0 [ls0 [Hlen [Hty H]]]] | [r [Ho [_ H]]]].
    + rewrite H in Hl.
      destruct (L (handle_state st m) rest) as [[[s1 c1] l1] o1] eqn:Hr.
      simpl in Hl. injection Hl as _ _ Hls Ho. subst ls o1.
      destruct (IH _ _ _ _ Hr) as [IH1 IH2].
      split.
      * rewrite length_app, Hlen, IH1. simpl. destruct (is_lut_request m); reflexivity.
      * intros m' [<- | Hm']; [exact Hty | apply IH2, Hm'].
    + rewrite H in Hl. subst r. simpl in Ho. contradiction.
Qed.

(** A merge none of whose ids resolves to a live node (an empty one
    included) raises [StopIteration] at [next(ordered)] and changes
    nothing. *)
Theorem learn_merge_nothing_live (st : solver Feature Classifier) (segments : list nat) :
  (forall s, In s segments -> ~ In (anc (rag st) s) (nodes (rag st))) ->
  learn_merge feature_vector st segments = (st, Some StopIteration).
Proof.
  intros H. unfold learn_merge, sub_nodes.
  replace (filter _ _) with (@nil nat); [reflexivity|].
  symmetry. apply filter_none.
  intros x Hx. apply memb_false. apply py_set_In, in_map_iff in Hx.
  destruct Hx as [s [<- Hs]]. apply H, Hs.
Qed.

(** [relearn] replays the merge history onto the copy of the original
    graph tagged by its loop over [enumerate(self.separate)]; in that
    tagged copy, [i] is in the exclusions of node [v] exactly when it
    was there in the original graph or [v] is one of the two fragments
    of the [i]-th recorded separation. *)
Theorem relearn_exclusions (st : solver Feature Classifier) (v i : nat) :
  rag (fst (relearn fit st))
    = replay_merge_history (fst (@tag_exclusions Feature (original_rag st) 0 (separate st)))
                           (history st) /\
  (In i (exclusions (fst (@tag_exclusions Feature (original_rag st) 0 (separate st))) v) <->
   In i (exclusions (original_rag st) v) \/
   exists f0 f1, nth_error (separate st) i = Some (f0, f1) /\ (v = f0 \/ v = f1)).
Proof.
  split.
  - unfold relearn. destruct (tag_exclusions (original_rag st) 0 (separate st)). reflexivity.
  - rewrite tag_exclusions_enumerate. simpl. rewrite tag_fold_In. simpl.
    split; intros [H | H]; [left; exact H | right | left; exact H | right].
    + destruct H as [n [f0 [f1 [-> H]]]]. exists f0, f1. exact H.
    + destruct H as [f0 [f1 H]]. exists i, f0, f1. split; [reflexivity | exact H].
Qed.

End SessionLoop.

(** ** The simulator, further *)

Section ProofreadMore.

Variable best_segmentation : list nat -> list nat -> list nat.
Variable fast_rag_nbrs : list nat -> nat -> list nat.
Variable rand : nat -> nat.

(** What [proofread] sends: for each label it takes from
    [zip(range(num_operations), true_labels)] a merge of the fragments
    overlapping that label, and separations [[f, n]] of a fragment [f] of
    that set and a neighbour [n] of [f] in the fragment graph outside
    the set; after all of them the request for the look-up table, and
    last a [stop] exactly when [stop_when_finished]. *)
Theorem proofread_messages (fragments true_segmentation : list nat)
  (num_operations : nat) (stop_when_finished : bool) :
  let true := best_segmentation fragments true_segmentation in
  let labels := firstn num_operations (shuffle rand (np_unique true)) in
  exists body,
    proofread_sent best_segmentation fast_rag_nbrs rand fragments true_segmentation
      num_operations stop_when_finished
    = body ++ [mkMessage "request" (What "fragment-segment-lut")]
           ++ (if stop_when_finished then [mkMessage "stop" NoFields] else []) /\
    forall m, In m body ->
      exists label, In label labels /\
        (m = mkMessage "merge" (Segments (column_indices fragments true label)) \/
         exists f n, m = mkMessage "separate" (Segments [f; n]) /\
           In f (column_indices fragments true label) /\
           In n (fast_rag_nbrs fragments f) /\
           ~ In n (column_indices fragments true label)).
Proof.
  intros tr labels. subst tr. eexists. split; [reflexivity|].
  intros m Hm. apply in_flat_map in Hm. destruct Hm as [p [Hp Hm]].
  exists (snd p). split.
  { subst labels. rewrite <- map_snd_enumerate with (k := 0). apply in_map, Hp. }
  destruct Hm as [<- | Hm]; [left; reflexivity | right].
  unfold boundary_separations in Hm. apply in_flat_map in Hm. destruct Hm as [f [Hf Hm]].
  apply in_flat_map in Hm. destruct Hm as [n [Hn Hm]].
  destruct (memb n (column_indices fragments _ (snd p))) eqn:E;
    simpl in Hm; [contradiction|].
  destruct Hm as [<- | []]. exists f, n. split; [reflexivity|].
  split; [exact Hf|]. split; [exact Hn|]. apply memb_false, E.
Qed.

(** The labels [proofread] merges are pairwise distinct labels of the
    ground truth, so no label is merged twice; when [num_operations] is
    at least the number of distinct labels, every label is merged. *)
Theorem proofread_labels (fragments true_segmentation : list nat) (num_operations : nat) :
  let true := best_segmentation fragments true_segmentation in
  let labels := firstn num_operations (shuffle rand (np_unique true)) in
  NoDup labels /\ (forall l, In l labels -> In l true) /\
  (length (np_unique true) <= num_operations -> forall l, In l true -> In l labels).
Proof.
  intros true labels.
  pose proof (shuffle_Permutation rand (np_unique true)) as Hp.
  assert (Hu : forall l, In l (np_unique true) <-> In l true) by (intros l; apply py_set_In).
  split; [apply NoDup_firstn', (Permutation_NoDup Hp), py_set_NoDup|].
  assert (Hin : forall l, In l labels -> In l (shuffle rand (np_unique true))).
  { intros l Hl. rewrite <- (firstn_skipn num_operations (shuffle rand (np_unique true))).
    apply in_or_app. left. exact Hl. }
  split.
  - intros l Hl. apply Hu, (Permutation_in _ (Permutation_sym Hp)), Hin, Hl.
  - intros Hn l Hl. subst labels. rewrite firstn_all2.
    + apply (Permutation_in _ Hp), Hu, Hl.
    + rewrite <- (Permutation_length Hp). exact Hn.
Qed.

End ProofreadMore.

(** ** The path instance *)

Ltac sel_edge_path := split; [simpl; auto | split; [simpl; auto | reflexivity]].

Lemma path_rag_wf : wf_rag path_rag.
Proof.
  split; simpl.
  - intros v H. repeat destruct H as [<- | H]; try lia; contradiction.
  - intros x y H. repeat destruct H as [H | H]; try (injection H as <- <-; lia);
      contradiction.
Qed.

Lemma path_124_disconnected : ~ connected path_rag [1; 2; 4].
Proof.
  intros H.
  assert (Hr := H 1 4 ltac:(simpl; auto) ltac:(simpl; auto)).
  assert (H4 : In 4 [1; 2]).
  { apply (reach_closed path_rag [1; 2; 4] [1; 2] 1 4); [| exact Hr | left; reflexivity].
    intros y z Hy Hz Hyz.
    destruct Hy as [<- | [<- | []]]; destruct Hz as [<- | [<- | [<- | []]]];
      simpl in Hyz; try discriminate; simpl; auto. }
  simpl in H4. lia.
Qed.

Lemma path_123_connected : connected path_rag [1; 2; 3].
Proof.
  assert (Hr : forall x, In x [1; 2; 3] ->
                 clos_refl_trans nat (sel_edge path_rag [1; 2; 3]) 1 x).
  { intros x [<- | [<- | [<- | []]]].
    - apply rt_refl.
    - apply rt_step. sel_edge_path.
    - apply (rt_trans _ _ _ 2); apply rt_step; sel_edge_path. }
  intros a b Ha Hb. apply (rt_trans _ _ _ 1).
  - apply reach_sym, Hr, Ha.
  - apply Hr, Hb.
Qed.

(** ** Witnesses and counterexamples *)

(** [merge {1, 2, 4}] on the path: 1 - 2 is merged and logged, then the
    extraction of (the merge of 1 and 2, 4) raises. *)
Lemma learn_merge_disconnected_partial_witness :
  wf_rag (rag st0) /\
  (forall s, In s [1; 2; 4] -> In (anc (rag st0) s) (nodes (rag st0))) /\
  ~ connected (rag st0) (py_set (map (anc (rag st0)) [1; 2; 4])) /\
  exists n0 S' C st' hs fs b,
    py_set (map (anc (rag st0)) [1; 2; 4]) = n0 :: S' /\
    (forall x, In x C <-> In x (n0 :: S') /\
                          clos_refl_trans nat (sel_edge (rag st0) (n0 :: S')) n0 x) /\
    NoDup C /\
    (exists r, In r (n0 :: S') /\ ~ In r C) /\
    learn_merge ex_fv st0 [1; 2; 4] = (st', Some KeyError) /\
    history st' = history st0 ++ hs /\ length hs = length C - 1 /\
    features st' = features st0 ++ fs /\ length fs = length C - 1 /\
    targets st' = targets st0 ++ repeat MERGE_LABEL (length C - 1) /\
    C = n0 :: map snd hs /\
    rag st' = replay_merge_history (rag st0) hs /\
    adjacent_merges (rag st0) hs = true /\
    In b (nodes (rag st')) /\
    (forall z, anc (rag st0) z < next (rag st0) ->
               anc (rag st') z = if memb (anc (rag st0) z) C then b else anc (rag st0) z) /\
    (forall v, In v C -> v <> b -> ~ In v (nodes (rag st'))) /\
    (forall v, In v (nodes (rag st0)) -> ~ In v C -> In v (nodes (rag st'))).
Proof.
  assert (H1 : wf_rag (rag st0)) by exact path_rag_wf.
  assert (H2 : forall s, In s [1; 2; 4] -> In (anc (rag st0) s) (nodes (rag st0)))
    by (simpl; intros s [<- | [<- | [<- | []]]]; simpl; auto).
  assert (H3 : ~ connected (rag st0) (py_set (map (anc (rag st0)) [1; 2; 4])))
    by (change (~ connected path_rag [1; 2; 4]); exact path_124_disconnected).
  split; [exact H1|]. split; [exact H2|]. split; [exact H3|].
  exact (learn_merge_disconnected_partial _ ex_fv _ st0 [1; 2; 4] H1 H2 H3).
Defined.

(** C1 is refuted by [merge {1, 2, 4}] on the path: the selection is
    disconnected, yet the pair (1, 2) enters the merge history with its
    feature vector and MERGE label, and the error is the [KeyError] of
    the feature extraction.  The graph keeps 1 and 2 merged into node 5,
    beside the untouched 3 and 4. *)
Lemma learn_merge_disconnected_counterexample :
  ~ connected (rag st0) (py_set (map (anc (rag st0)) [1; 2; 4])) /\
  snd (learn_merge ex_fv st0 [1; 2; 4]) = Some KeyError /\
  history (fst (learn_merge ex_fv st0 [1; 2; 4])) = [(1, 2)] /\
  features (fst (learn_merge ex_fv st0 [1; 2; 4])) = [(1, 2)] /\
  targets (fst (learn_merge ex_fv st0 [1; 2; 4])) = [MERGE_LABEL] /\
  nodes (rag (fst (learn_merge ex_fv st0 [1; 2; 4]))) = [3; 4; 5] /\
  anc (rag (fst (learn_merge ex_fv st0 [1; 2; 4]))) 1 = 5 /\
  anc (rag (fst (learn_merge ex_fv st0 [1; 2; 4]))) 2 = 5.
Proof.
  split; [change (~ connected path_rag [1; 2; 4]); exact path_124_disconnected|].
  vm_compute. repeat split.
Qed.

(** C2 is refuted by the look-up table of the path, whose fragments are
    1, 2, 3, 4, after [merge [1, 2]]: the log holds one example, and the
    table's [fragments] are 0, 1, 2, 3, 4, 5 (the merge tree has handed
    out id 5 to the merge of 1 and 2). *)
Lemma send_segmentation_fragments_counterexample :
  history (fst (learn_merge ex_fv st0 [1; 2])) = [(1, 2)] /\
  features (fst (learn_merge ex_fv st0 [1; 2])) = [(1, 2)] /\
  targets (fst (learn_merge ex_fv st0 [1; 2])) = [MERGE_LABEL] /\
  lut_fragments (snd (send_segmentation ex_fit ex_agglomerate ex_get_map
                        (fst (learn_merge ex_fv st0 [1; 2]))))
    = [0; 1; 2; 3; 4; 5] /\
  nodes (original_rag (fst (learn_merge ex_fv st0 [1; 2]))) = [1; 2; 3; 4] /\
  ~ Permutation (lut_fragments (snd (send_segmentation ex_fit ex_agglomerate ex_get_map
                                       (fst (learn_merge ex_fv st0 [1; 2])))))
                (nodes (original_rag (fst (learn_merge ex_fv st0 [1; 2])))).
Proof.
  split; [vm_compute; reflexivity|]. split; [vm_compute; reflexivity|].
  split; [vm_compute; reflexivity|]. split; [vm_compute; reflexivity|].
  split; [vm_compute; reflexivity|].
  intros H. apply Permutation_length in H. vm_compute in H. discriminate.
Qed.

(** [merge {1, 2, 3}] on the path: two pairs, two examples, no error. *)
Lemma learn_merge_connected_appends_witness :
  wf_rag (rag st0) /\
  (forall s, In s [1; 2; 3] -> In (anc (rag st0) s) (nodes (rag st0))) /\
  2 <= length (py_set (map (anc (rag st0)) [1; 2; 3])) /\
  connected (rag st0) (py_set (map (anc (rag st0)) [1; 2; 3])) /\
  let k := length (py_set (map (anc (rag st0)) [1; 2; 3])) in
  exists st' hs fs,
    learn_merge ex_fv st0 [1; 2; 3] = (st', None) /\
    history st' = history st0 ++ hs /\ length hs = k - 1 /\
    features st' = features st0 ++ fs /\ length fs = k - 1 /\
    targets st' = targets st0 ++ repeat MERGE_LABEL (k - 1).
Proof.
  assert (H1 : wf_rag (rag st0)) by exact path_rag_wf.
  assert (H2 : forall s, In s [1; 2; 3] -> In (anc (rag st0) s) (nodes (rag st0)))
    by (simpl; intros s [<- | [<- | [<- | []]]]; simpl; auto).
  assert (H3 : 2 <= length (py_set (map (anc (rag st0)) [1; 2; 3])))
    by (apply Nat.leb_le; vm_compute; reflexivity).
  assert (H4 : connected (rag st0) (py_set (map (anc (rag st0)) [1; 2; 3])))
    by (change (connected path_rag [1; 2; 3]); exact path_123_connected).
  split; [exact H1|]. split; [exact H2|]. split; [exact H3|]. split; [exact H4|].
  exact (learn_merge_connected_appends _ ex_fv _ st0 [1; 2; 3] H1 H2 H3 H4).
Defined.

(** [merge [2, 2]]: one resolved segment, nothing changes. *)
Lemma learn_merge_same_ancestor_noop_witness :
  [2; 2] <> [] /\
  (forall s, In s [2; 2] -> anc (rag st0) s = 2) /\
  fst (learn_merge ex_fv st0 [2; 2]) = st0 /\
  (In 2 (nodes (rag st0)) -> snd (learn_merge ex_fv st0 [2; 2]) = None).
Proof.
  assert (H1 : [2; 2] <> []) by discriminate.
  assert (H2 : forall s, In s [2; 2] -> anc (rag st0) s = 2)
    by (simpl; intros s [<- | [<- | []]]; reflexivity).
  split; [exact H1|]. split; [exact H2|].
  exact (learn_merge_same_ancestor_noop _ ex_fv _ st0 [2; 2] 2 H1 H2).
Defined.

(** [separate [1, 3]] on the path: 1 and 3 are not adjacent, the
    extraction fails and the separation is dropped. *)
Lemma learn_separation_extraction_failure_witness :
  boundary_body (rag st0) <> 1 /\ boundary_body (rag st0) <> 3 /\
  ex_separate_fragments (rag st0) 1 3 = (path_rag, (1, 3)) /\
  adjb path_rag 1 3 = false /\
  learn_separation ex_fv ex_separate_fragments st0 [1; 3]
    = (set_rag st0 path_rag, None, [FailedToSplit 1 3 1 3]) /\
  features (set_rag st0 path_rag) = features st0 /\
  targets (set_rag st0 path_rag) = targets st0 /\
  separate (set_rag st0 path_rag) = separate st0 /\
  history (set_rag st0 path_rag) = history st0 /\
  rag (set_rag st0 path_rag) = path_rag /\
  listen ex_fv ex_fit ex_separate_fragments ex_agglomerate ex_get_map st0
    [mkMessage "separate" (Segments [1; 3])]
  = prepend [FailedToSplit 1 3 1 3] []
      (listen ex_fv ex_fit ex_separate_fragments ex_agglomerate ex_get_map
         (set_rag st0 path_rag) []).
Proof.
  assert (H1 : boundary_body (rag st0) <> 1) by (simpl; lia).
  assert (H2 : boundary_body (rag st0) <> 3) by (simpl; lia).
  assert (H3 : ex_separate_fragments (rag st0) 1 3 = (path_rag, (1, 3))) by reflexivity.
  assert (H4 : adjb path_rag 1 3 = false) by reflexivity.
  split; [exact H1|]. split; [exact H2|]. split; [exact H3|]. split; [exact H4|].
  exact (learn_separation_extraction_failure _ ex_fv _ ex_fit ex_separate_fragments
           ex_agglomerate ex_get_map st0 1 3 1 3 path_rag [] H1 H2 H3 H4).
Defined.

(** [separate [0, 2]] names the boundary 0. *)
Lemma learn_separation_boundary_noop_witness :
  (boundary_body (rag st0) = 0 \/ boundary_body (rag st0) = 2) /\
  learn_separation ex_fv ex_separate_fragments st0 [0; 2] = (st0, None, []).
Proof.
  assert (H : boundary_body (rag st0) = 0 \/ boundary_body (rag st0) = 2)
    by (left; reflexivity).
  split; [exact H|].
  exact (learn_separation_boundary_noop _ ex_fv _ ex_separate_fragments st0 0 2 H).
Defined.

(** The one-example log after [merge [1, 2]]; from there, a merge of
    1 and 3 and a separation of 1 from 3, each appending one example,
    and relearning. *)
Lemma log_inv_preserved_witness :
  log_inv (fst (learn_merge ex_fv st0 [1; 2])) /\
  log_inv (fst (learn_merge ex_fv (fst (learn_merge ex_fv st0 [1; 2])) [1; 3])) /\
  log_inv (fst (fst (learn_separation ex_fv ex_separate_fragments
                       (fst (learn_merge ex_fv st0 [1; 2])) [1; 3]))) /\
  log_inv (fst (relearn ex_fit (fst (learn_merge ex_fv st0 [1; 2])))) /\
  log_inv (fst (fst (send_segmentation ex_fit ex_agglomerate ex_get_map
                       (fst (learn_merge ex_fv st0 [1; 2]))))).
Proof.
  assert (H : log_inv (fst (learn_merge ex_fv st0 [1; 2])))
    by (vm_compute; split; [reflexivity | split; reflexivity]).
  split; [exact H|].
  exact (log_inv_preserved _ ex_fv _ ex_fit ex_separate_fragments ex_agglomerate
           ex_get_map (fst (learn_merge ex_fv st0 [1; 2])) [1; 3] [1; 3] H).
Defined.

(** C8 is refuted by [merge {1, 4}] followed by [merge {1, 2}]: the
    first raises [KeyError], [listen] ends there, and the second merge,
    which alone would log the pair (1, 2), is never processed. *)
Lemma listen_counterexample :
  listen ex_fv ex_fit ex_separate_fragments ex_agglomerate ex_get_map st0
    [mkMessage "merge" (Segments [1; 4]); mkMessage "merge" (Segments [1; 2])]
  = (st0, [], [], Raised KeyError) /\
  history (fst (learn_merge ex_fv st0 [1; 2])) = [(1, 2)].
Proof.
  split; vm_compute; reflexivity.
Qed.

(** The short session reads every message and waits: one table sent. *)
Lemma listen_waiting_luts_witness :
  listen ex_fv ex_fit ex_separate_fragments ex_agglomerate ex_get_map st0 ex_msgs
  = (listen_state (listen ex_fv ex_fit ex_separate_fragments ex_agglomerate ex_get_map st0 ex_msgs),
     snd (fst (fst (listen ex_fv ex_fit ex_separate_fragments ex_agglomerate ex_get_map st0 ex_msgs))),
     snd (fst (listen ex_fv ex_fit ex_separate_fragments ex_agglomerate ex_get_map st0 ex_msgs)),
     Waiting) /\
  length (snd (fst (listen ex_fv ex_fit ex_separate_fragments ex_agglomerate ex_get_map st0 ex_msgs)))
    = length (filter is_lut_request ex_msgs) /\
  (forall m, In m ex_msgs -> handled_type m = true).
Proof.
  assert (H : listen ex_fv ex_fit ex_separate_fragments ex_agglomerate ex_get_map st0 ex_msgs
    = (listen_state (listen ex_fv ex_fit ex_separate_fragments ex_agglomerate ex_get_map st0 ex_msgs),
       snd (fst (fst (listen ex_fv ex_fit ex_separate_fragments ex_agglomerate ex_get_map st0 ex_msgs))),
       snd (fst (listen ex_fv ex_fit ex_separate_fragments ex_agglomerate ex_get_map st0 ex_msgs)),
       Waiting)) by (vm_compute; reflexivity).
  split; [exact H|].
  exact (listen_waiting_luts _ ex_fv _ ex_fit ex_separate_fragments ex_agglomerate ex_get_map
           st0 _ ex_msgs _ _ H).
Defined.

(** [merge [7, 0]] on the path: neither id is a node. *)
Lemma learn_merge_nothing_live_witness :
  (forall s, In s [7; 0] -> ~ In (anc (rag st0) s) (nodes (rag st0))) /\
  learn_merge ex_fv st0 [7; 0] = (st0, Some StopIteration).
Proof.
  assert (H : forall s, In s [7; 0] -> ~ In (anc (rag st0) s) (nodes (rag st0))).
  { intros s Hs. simpl in Hs. destruct Hs as [<- | [<- | []]]; simpl; lia. }
  split; [exact H|].
  exact (learn_merge_nothing_live _ ex_fv _ st0 [7; 0] H).
Defined.

